(** * zuu::bytes<N> -- a fixed-size byte container (src/bytes.hpp)

    Shallow embedding of the container and of its bit and byte algorithms,
    followed by the properties of the specification that they satisfy.

    Modelling conventions:
    - [unsigned char] and [size_t] values are integers of [Z]; every
      conversion to [unsigned char] is written [to_byte] (reduction modulo
      2^8) and every [size_t] subtraction, addition or product is written
      [to_size] (reduction modulo 2^64);
    - the array [data_] is a list of bytes, read with [rd] and written with
      [wr]; the template parameter [N] is a variable of the section;
    - a [for] loop is a structural iteration over its index, with the loop
      state passed explicitly. *)

From Stdlib Require Import Ascii String.
From stdpp Require Import base numbers list strings.

Local Open Scope Z_scope.

(** ** Machine integers *)

Abbreviation byte_t := Z (only parsing).
Abbreviation index_t := Z (only parsing).

Definition SIZE_BITS : Z := 64.

(** Conversion of an [int] to [unsigned char]. *)
Definition to_byte (z : Z) : byte_t := z mod 256.

(** Result of an arithmetic operation carried out in [size_t]. *)
Definition to_size (z : Z) : index_t := z mod 2 ^ SIZE_BITS.

Definition is_byte (b : Z) : Prop := 0 <= b < 256.
Definition is_size (z : Z) : Prop := 0 <= z < 2 ^ SIZE_BITS.

(** ** Loops *)

(** [for (i = a ; i < a + count ; ++i) body] *)
Fixpoint for_up {S : Type} (i : Z) (count : nat) (body : Z -> S -> S) (s : S) : S :=
  match count with
  | O => s
  | Datatypes.S c => for_up (i + 1) c body (body i s)
  end.

(** [for (i = count ; i-- > 0 ;) body] *)
Fixpoint for_down {S : Type} (count : nat) (body : Z -> S -> S) (s : S) : S :=
  match count with
  | O => s
  | Datatypes.S c => for_down c body (body (Z.of_nat c) s)
  end.

(** ** The array [data_] *)

Abbreviation bytes := (list Z) (only parsing).

(** [a[i]] as an rvalue.  An index outside of the array is undefined
    behaviour in the source and reads 0 here; the theorems are stated for
    containers of [N] cells, on which the loops below stay inside of the
    array. *)
Definition rd (a : bytes) (i : index_t) : byte_t :=
  default 0 (a !! Z.to_nat i).

(** [a[i] = v].  An index outside of the array leaves the list as it is. *)
Definition wr (a : bytes) (i : index_t) (v : byte_t) : bytes :=
  <[Z.to_nat i := v]> a.

Section Bytes.

(** The template parameter [N]; [static_assert(N > 0)] is the hypothesis
    [0 < N] of the theorems. *)
Variable N : Z.

(** A well-formed object of type [bytes<N>]: [N] cells, each one an
    [unsigned char]. *)
Definition valid (x : bytes) : Prop :=
  length x = Z.to_nat N /\ Forall is_byte x.

(** [bytes{}]: the member initialiser [data_[N]{}] zeroes the array. *)
Definition zero : bytes := replicate (Z.to_nat N) 0.

(** *** Element access *)

(** The cell that [operator[]] refers to. *)
Definition subscript_index (index : index_t) : index_t :=
  Z.min index (to_size (N - 1)).

(** [operator[] const]: the value read through the returned reference;
    [None] would be an access outside of the array. *)
Definition subscript (x : bytes) (index : index_t) : option byte_t :=
  x !! Z.to_nat (subscript_index index).

(** [operator[]] (mutable): the effect of assigning [v] through the returned
    reference. *)
Definition subscript_assign (x : bytes) (index : index_t) (v : byte_t) : bytes :=
  wr x (subscript_index index) v.

(** [at]: no clamping. *)
Definition at_ (x : bytes) (index : index_t) : option byte_t :=
  x !! Z.to_nat index.

(** *** Bitwise operations *)

Definition bor (x other : bytes) : bytes :=
  for_up 0 (Z.to_nat N)
    (fun i result => wr result i (to_byte (Z.lor (rd x i) (rd other i)))) zero.

Definition band (x other : bytes) : bytes :=
  for_up 0 (Z.to_nat N)
    (fun i result => wr result i (to_byte (Z.land (rd x i) (rd other i)))) zero.

Definition bxor (x other : bytes) : bytes :=
  for_up 0 (Z.to_nat N)
    (fun i result => wr result i (to_byte (Z.lxor (rd x i) (rd other i)))) zero.

Definition bnot (x : bytes) : bytes :=
  for_up 0 (Z.to_nat N)
    (fun i result => wr result i (to_byte (Z.lnot (rd x i)))) zero.

(** *** Shifts *)

(** [operator<<(index_t)] *)
Definition shl (x : bytes) (shift_bits : index_t) : bytes :=
  if shift_bits =? 0 then x
  else if to_size (N * 8) <=? shift_bits then zero
  else
    let byte_shift := shift_bits / 8 in
    let bit_shift := shift_bits mod 8 in
    if bit_shift =? 0 then
      for_up byte_shift (Z.to_nat (N - byte_shift))
        (fun i result => wr result i (rd x (to_size (i - byte_shift)))) zero
    else
      fst (for_up 0 (Z.to_nat (to_size (N - byte_shift)))
             (fun i '(result, carry) =>
                let src_idx := i in
                let dst_idx := to_size (i + byte_shift) in
                (wr result dst_idx
                    (to_byte (Z.lor (Z.shiftl (rd x src_idx) bit_shift) carry)),
                 to_byte (Z.shiftr (rd x src_idx) (to_size (8 - bit_shift)))))
             (zero, 0)).

(** [operator>>(index_t)] *)
Definition shr (x : bytes) (shift_bits : index_t) : bytes :=
  if shift_bits =? 0 then x
  else if to_size (N * 8) <=? shift_bits then zero
  else
    let byte_shift := shift_bits / 8 in
    let bit_shift := shift_bits mod 8 in
    if bit_shift =? 0 then
      for_up 0 (Z.to_nat (to_size (N - byte_shift)))
        (fun i result => wr result i (rd x (to_size (i + byte_shift)))) zero
    else
      fst (for_down (Z.to_nat (to_size (N - byte_shift)))
             (fun i '(result, carry) =>
                let src_idx := to_size (i + byte_shift) in
                let dst_idx := i in
                (wr result dst_idx
                    (to_byte (Z.lor (Z.shiftr (rd x src_idx) bit_shift) carry)),
                 to_byte (Z.shiftl (rd x src_idx) (to_size (8 - bit_shift)))))
             (zero, 0)).

(** *** Single bits *)

Definition set_bit (x : bytes) (bit_pos : index_t) : bytes :=
  if bit_pos <? to_size (N * 8) then
    wr x (bit_pos / 8)
       (to_byte (Z.lor (rd x (bit_pos / 8)) (Z.shiftl 1 (bit_pos mod 8))))
  else x.

Definition clear_bit (x : bytes) (bit_pos : index_t) : bytes :=
  if bit_pos <? to_size (N * 8) then
    wr x (bit_pos / 8)
       (to_byte (Z.land (rd x (bit_pos / 8)) (Z.lnot (Z.shiftl 1 (bit_pos mod 8)))))
  else x.

Definition toggle_bit (x : bytes) (bit_pos : index_t) : bytes :=
  if bit_pos <? to_size (N * 8) then
    wr x (bit_pos / 8)
       (to_byte (Z.lxor (rd x (bit_pos / 8)) (Z.shiftl 1 (bit_pos mod 8))))
  else x.

Definition test_bit (x : bytes) (bit_pos : index_t) : bool :=
  if to_size (N * 8) <=? bit_pos then false
  else negb (Z.land (rd x (bit_pos / 8)) (Z.shiftl 1 (bit_pos mod 8)) =? 0).

(** *** Rotation *)

Definition rotate_left (x : bytes) (n : index_t) : bytes :=
  let n := n mod to_size (N * 8) in
  bor (shl x n) (shr x (to_size (to_size (N * 8) - n))).

Definition rotate_right (x : bytes) (n : index_t) : bytes :=
  let n := n mod to_size (N * 8) in
  bor (shr x n) (shl x (to_size (to_size (N * 8) - n))).

(** *** Population count *)

(** [std::popcount] on an [unsigned char]. *)
Definition std_popcount (b : byte_t) : Z :=
  for_up 0 8 (fun k c => c + Z.b2z (Z.testbit b k)) 0.

Definition popcount (x : bytes) : index_t :=
  for_up 0 (Z.to_nat N)
    (fun i count => to_size (count + std_popcount (rd x i))) 0.

(** *** Conversion from and to integers *)

(** An integral type: its [sizeof] and its signedness. *)
Record int_type := IntType { int_size : Z; int_signed : bool }.

Definition int_bits (I : int_type) : Z := 8 * int_size I.

(** The values of the type [I]. *)
Definition representable (I : int_type) (v : Z) : Prop :=
  if int_signed I then - 2 ^ (int_bits I - 1) <= v < 2 ^ (int_bits I - 1)
  else 0 <= v < 2 ^ int_bits I.

(** The [n] low-order bytes of [v], least significant first. *)
Fixpoint le_bytes (n : nat) (v : Z) : bytes :=
  match n with
  | O => []
  | S n' => v mod 256 :: le_bytes n' (v / 256)
  end.

Fixpoint le_value (l : bytes) : Z :=
  match l with
  | [] => 0
  | b :: l' => b + 256 * le_value l'
  end.

(** Object representation of a value of type [I] on the little-endian,
    two's complement targets that the source assumes ("Byte order adalah
    little-endian"), and the value that an object representation denotes. *)
Definition object_repr (I : int_type) (v : Z) : bytes :=
  le_bytes (Z.to_nat (int_size I)) v.

Definition object_value (I : int_type) (l : bytes) : Z :=
  let u := le_value l in
  if int_signed I && (2 ^ (int_bits I - 1) <=? u) then u - 2 ^ int_bits I else u.

(** [std::memcpy(dst, src, n)], the two objects being at least [n] bytes
    long. *)
Definition memcpy (dst src : bytes) (n : index_t) : bytes :=
  take (Z.to_nat n) src ++ drop (Z.to_nat n) dst.

(** [bytes(IntType value)] *)
Definition from_int (I : int_type) (value : Z) : bytes :=
  let int_size := int_size I in
  let copy_size := Z.min N int_size in
  memcpy zero (object_repr I value) copy_size.

(** [to_int<IntType>()] *)
Definition to_int (I : int_type) (x : bytes) : Z :=
  let result := object_repr I 0 in
  let copy_size := Z.min N (int_size I) in
  object_value I (memcpy result x copy_size).

(** *** Comparison *)

(** The defaulted [operator<=>] compares the elements of the member array
    [data_] in increasing index order and stops at the first pair that
    differs. *)
Definition spaceship (x other : bytes) : comparison :=
  for_up 0 (Z.to_nat N)
    (fun i c => match c with Eq => rd x i ?= rd other i | _ => c end) Eq.

(** The defaulted [operator==]. *)
Definition equal (x other : bytes) : bool :=
  for_up 0 (Z.to_nat N) (fun i r => r && (rd x i =? rd other i)) true.

(** *** Output *)

(** An output stream is the text written to it so far; the stream has the
    formatting state of a fresh stream. *)
Definition ostream := string.

Definition put (os : ostream) (c : ascii) : ostream := os +:+ String c "".

(** [operator<<(std::ostream&, const bytes&)] *)
Definition print_binary (os : ostream) (b : bytes) : ostream :=
  for_up 0 (Z.to_nat N)
    (fun i os =>
       let os :=
         for_down 8
           (fun j os =>
              put os (if Z.land (Z.shiftr (rd b i) j) 1 =? 0
                      then "0"%char else "1"%char)) os in
       if i =? to_size (N - 1) then os else put os " "%char)
    os.

Definition hex_digit (d : Z) : ascii :=
  nth (Z.to_nat d) (list_ascii_of_string "0123456789abcdef") "?"%char.

(** The digits of a non-negative [int] in base 16, most significant
    first, without leading zeros. *)
Fixpoint hex_digits (fuel : nat) (v : Z) (acc : string) : string :=
  match fuel with
  | O => acc
  | S fuel' =>
      let acc := String (hex_digit (v mod 16)) acc in
      if v / 16 =? 0 then acc else hex_digits fuel' (v / 16) acc
  end.

(** Right adjustment in a field of [width] characters. *)
Definition pad_left (width : nat) (fill : ascii) (s : string) : string :=
  string_of_list_ascii (replicate (width - String.length s)%nat fill) +:+ s.

(** [os << std::hex << std::setfill(fill) << std::setw(width) << v] for an
    [int] [v] (32 bits, hence at most 8 digits). *)
Definition put_hex (os : ostream) (width : nat) (fill : ascii) (v : Z) : ostream :=
  os +:+ pad_left width fill (hex_digits 8 v "").

(** [print_hex] *)
Definition print_hex (os : ostream) (x : bytes) : ostream :=
  let os := os +:+ "0x" in
  for_down (Z.to_nat N)
    (fun i os => put_hex os 2 "0"%char (rd x i)) os.

(** *** Other constructors, modifiers and accessors *)

(** [std::copy(src, src + count, dst)] *)
Definition std_copy (src : bytes) (count : index_t) (dst : bytes) : bytes :=
  for_up 0 (Z.to_nat count) (fun i d => wr d i (rd src i)) dst.

(** [std::fill(dst, dst + count, value)] *)
Definition std_fill (dst : bytes) (count : index_t) (value : byte_t) : bytes :=
  for_up 0 (Z.to_nat count) (fun i d => wr d i value) dst.

(** [bytes(const byte_t (&data)[N])] *)
Definition from_array (data : bytes) : bytes :=
  std_copy data N zero.

(** [bytes(const byte_t* data, size_t len)] *)
Definition from_ptr (data : bytes) (len : index_t) : bytes :=
  std_copy data (Z.min N len) zero.

(** [fill] *)
Definition fill (x : bytes) (value : byte_t) : bytes :=
  std_fill x N value.

(** [clear] *)
Definition clear (x : bytes) : bytes := fill x 0.

(** [reverse] *)
Definition reverse (x : bytes) : bytes :=
  for_up 0 (Z.to_nat N)
    (fun i result => wr result i (rd x (to_size (to_size (N - 1) - i)))) zero.

(** [front] and [back]; [None] would be an access outside of the array. *)
Definition front (x : bytes) : option byte_t := x !! Z.to_nat 0.

Definition back (x : bytes) : option byte_t := x !! Z.to_nat (to_size (N - 1)).

(** [size] and [bit_size] *)
Definition size : index_t := N.

Definition bit_size : index_t := to_size (N * 8).

End Bytes.

Definition uint8_t := IntType 1 false.
Definition int8_t := IntType 1 true.
Definition uint16_t := IntType 2 false.
Definition int16_t := IntType 2 true.
Definition uint32_t := IntType 4 false.
Definition int32_t := IntType 4 true.
Definition uint64_t := IntType 8 false.
Definition int64_t := IntType 8 true.

(** ** zuu::composer<T> (src/composer.hpp), for an integral type [T]

    The two members of the union share their storage: the object is the
    array [raw_] of [sizeof(T)] bytes, and [value_] is the value that these
    bytes denote. *)

Section Composer.

Variable T : int_type.

Definition byte_size : index_t := int_size T.

(** [composer()]: [value_{}] *)
Definition composer_default : bytes := object_repr T 0.

(** [composer(const T& value)] *)
Definition composer_of_value (value : Z) : bytes := object_repr T value.

(** [composer(const uint8_t* data, size_type len)] *)
Definition composer_of_raw (data : bytes) (len : index_t) : bytes :=
  let copy_len := if len <? byte_size then len else byte_size in
  for_up 0 (Z.to_nat copy_len) (fun i raw_ => wr raw_ i (rd data i))
    composer_default.

(** [value()] *)
Definition composer_value (raw_ : bytes) : Z := object_value T raw_.

(** The cell that [byte_at] refers to. *)
Definition byte_at_index (i : index_t) : index_t :=
  if i <? byte_size then i else to_size (byte_size - 1).

(** [byte_at(i) const]; [None] would be an access outside of the array. *)
Definition byte_at (raw_ : bytes) (i : index_t) : option byte_t :=
  raw_ !! Z.to_nat (byte_at_index i).

End Composer.

(** ** zuu::type_list_t<Ts...> (src/typelist.hpp)

    A pack of types is a list over a universe [ty] of types with decidable
    identity ([std::is_same_v]); [sizeof] and [alignof] are functions on
    it. *)

(** [~0U], an [unsigned int] of 32 bits, as a [size_t]. *)
Definition NOT_0U : Z := 2 ^ 32 - 1.

(** [impl::help::max] on two [size_t] values. *)
Definition max2 (a b : Z) : Z := if b <? a then a else b.

(** [impl::help::max] on more than two [size_t] values: the maximum of the
    first two, then the same with that maximum in front of the rest. *)
Fixpoint max_pack (a b : Z) (o : list Z) : Z :=
  let ab := max2 a b in
  match o with
  | [] => ab
  | c :: o' => max_pack ab c o'
  end.

Section TypeList.

Context {ty : Type} `{EqDecision ty}.
Variables sizeof alignof : ty -> Z.

(** [count] *)
Definition count (Ts : list ty) : index_t := Z.of_nat (length Ts).

(** [total_size]: the fold [(0 + ... + sizeof(Ts))], in [size_t]. *)
Definition total_size (Ts : list ty) : index_t :=
  fold_left (fun acc t => to_size (acc + sizeof t)) Ts 0.

(** [impl::type_at]; there is no specialisation for the empty list, so an
    index past the end names no type. *)
Fixpoint type_at (n : index_t) (Ts : list ty) : option ty :=
  match Ts with
  | [] => None
  | t :: Ts' => if n =? 0 then Some t else type_at (to_size (n - 1)) Ts'
  end.

(** [impl::index_of] *)
Fixpoint index_of (t : ty) (Ts : list ty) : index_t :=
  match Ts with
  | [] => NOT_0U
  | u :: Us => if decide (t = u) then 0 else to_size (1 + index_of t Us)
  end.

(** [impl::contains] *)
Fixpoint contains (t : ty) (Ts : list ty) : bool :=
  match Ts with
  | [] => false
  | u :: Us => bool_decide (t = u) || contains t Us
  end.

(** [max_size] *)
Definition max_size (Ts : list ty) : index_t :=
  match Ts with
  | [] => 0
  | [t] => sizeof t
  | t :: u :: o => max_pack (sizeof t) (sizeof u) (map sizeof o)
  end.

(** [max_align] *)
Definition max_align (Ts : list ty) : index_t :=
  match Ts with
  | [] => 1
  | [t] => alignof t
  | t :: u :: o => max_pack (alignof t) (alignof u) (map alignof o)
  end.

End TypeList.

(** ** The words of the specification *)

(** Bit [j] of the container seen as one little-endian sequence of bits:
    bit [j mod 8] of byte [j / 8]. *)
Definition bit (x : bytes) (j : Z) : bool :=
  Z.testbit (rd x (j / 8)) (j mod 8).

(** A byte as 8 binary digits, bit 7 first. *)
Definition bin8 (b : Z) : string :=
  string_of_list_ascii
    (map (fun k => if Z.testbit b k then "1"%char else "0"%char)
         [7; 6; 5; 4; 3; 2; 1; 0]).

(** A byte as 2 lowercase hexadecimal digits. *)
Definition hex2 (b : Z) : string :=
  String (hex_digit (b / 16)) (String (hex_digit (b mod 16)) "").

(** The binary rendering as the code writes it: the bytes in index order,
    byte 0 first and byte [N - 1] last, separated by one space. *)
Definition binary_low_to_high (x : bytes) : string :=
  String.concat " " (map bin8 x).

(** The binary rendering in the words of the specification: byte [N - 1]
    first and byte 0 last. *)
Definition binary_high_to_low (x : bytes) : string :=
  String.concat " " (map bin8 (rev x)).

(** The hexadecimal rendering: "0x", then the bytes from the highest index
    down to index 0. *)
Definition hex_high_to_low (x : bytes) : string :=
  "0x" +:+ String.concat "" (map hex2 (rev x)).

(** The lexicographic order on sequences of bytes, first byte first. *)
Fixpoint lex_compare (x y : bytes) : comparison :=
  match x, y with
  | a :: x', b :: y' =>
      match a ?= b with
      | Eq => lex_compare x' y'
      | c => c
      end
  | _, _ => Eq
  end.

(** * Properties *)

(** ** Machine integers, array cells, loops *)

Lemma to_size_small (z : Z) : is_size z -> to_size z = z.
Proof. unfold is_size, to_size. intros H. apply Z.mod_small. exact H. Qed.

Lemma to_byte_small (z : Z) : is_byte z -> to_byte z = z.
Proof. unfold is_byte, to_byte. intros H. apply Z.mod_small. exact H. Qed.

Lemma to_byte_is_byte (z : Z) : is_byte (to_byte z).
Proof. unfold is_byte, to_byte. apply Z.mod_pos_bound. lia. Qed.

Lemma testbit_to_byte (z m : Z) :
  0 <= m < 8 -> Z.testbit (to_byte z) m = Z.testbit z m.
Proof.
  intros Hm. unfold to_byte. change 256 with (2 ^ 8).
  apply Z.mod_pow2_bits_low. lia.
Qed.

Lemma testbit_byte_high (b m : Z) : is_byte b -> 8 <= m -> Z.testbit b m = false.
Proof.
  intros Hb Hm. rewrite <- (Z.mod_small b (2 ^ 8)) by exact Hb.
  apply Z.mod_pow2_bits_high. lia.
Qed.

Lemma length_wr (a : bytes) (i v : Z) : length (wr a i v) = length a.
Proof. unfold wr. apply length_insert. Qed.

Lemma rd_wr (a : bytes) (i j v : Z) :
  0 <= i -> 0 <= j -> (Z.to_nat i < length a)%nat ->
  rd (wr a i v) j = if j =? i then v else rd a j.
Proof.
  intros Hi Hj Hlen. unfold rd, wr.
  destruct (Z.eqb_spec j i) as [->|Hne].
  - rewrite list_lookup_insert_eq by exact Hlen. reflexivity.
  - rewrite list_lookup_insert_ne by lia. reflexivity.
Qed.

Lemma rd_outside (a : bytes) (i : Z) : (length a <= Z.to_nat i)%nat -> rd a i = 0.
Proof.
  intros H. unfold rd. rewrite (proj2 (lookup_ge_None a (Z.to_nat i))) by exact H.
  reflexivity.
Qed.

Lemma rd_lookup (a : bytes) (i : Z) :
  (Z.to_nat i < length a)%nat -> a !! Z.to_nat i = Some (rd a i).
Proof.
  intros H. unfold rd.
  destruct (lookup_lt_is_Some_2 a (Z.to_nat i) H) as [b Hb].
  rewrite Hb. reflexivity.
Qed.

Lemma rd_is_byte (a : bytes) (i : Z) : Forall is_byte a -> is_byte (rd a i).
Proof.
  intros Ha. unfold rd.
  destruct (a !! Z.to_nat i) as [b|] eqn:Hb; simpl.
  - exact (Forall_lookup_1 _ _ _ _ Ha Hb).
  - unfold is_byte. lia.
Qed.

Lemma rd_ext (a b : bytes) :
  length a = length b ->
  (forall i, 0 <= i < Z.of_nat (length a) -> rd a i = rd b i) ->
  a = b.
Proof.
  intros Hlen Hrd. apply list_eq_same_length with (n := length a); auto.
  intros i x y Hi Hx Hy.
  assert (Hi' : (Z.to_nat (Z.of_nat i) < length a)%nat) by lia.
  specialize (Hrd (Z.of_nat i) ltac:(lia)).
  pose proof (rd_lookup a (Z.of_nat i) Hi') as Ha.
  pose proof (rd_lookup b (Z.of_nat i) ltac:(lia)) as Hb.
  rewrite Nat2Z.id in Ha, Hb. congruence.
Qed.

Lemma for_up_ext {S : Type} (f g : Z -> S -> S) (n : nat) :
  forall a s,
    (forall i s', a <= i < a + Z.of_nat n -> f i s' = g i s') ->
    for_up a n f s = for_up a n g s.
Proof.
  induction n as [|n IH]; intros a s H; simpl; [reflexivity|].
  rewrite (H a s) by lia. apply IH. intros i s' Hi. apply H. lia.
Qed.

Lemma for_down_ext {S : Type} (f g : Z -> S -> S) (n : nat) :
  forall s,
    (forall i s', 0 <= i < Z.of_nat n -> f i s' = g i s') ->
    for_down n f s = for_down n g s.
Proof.
  induction n as [|n IH]; intros s H; simpl; [reflexivity|].
  rewrite (H (Z.of_nat n) s) by lia. apply IH. intros i s' Hi. apply H. lia.
Qed.

Lemma for_up_inv {S : Type} (P : S -> Prop) (f : Z -> S -> S) (n : nat) :
  forall a s, (forall i s', P s' -> P (f i s')) -> P s -> P (for_up a n f s).
Proof.
  induction n as [|n IH]; intros a s Hf Hs; simpl; [exact Hs|].
  apply IH; [exact Hf|]. apply Hf, Hs.
Qed.

Lemma for_down_inv {S : Type} (P : S -> Prop) (f : Z -> S -> S) (n : nat) :
  forall s, (forall i s', P s' -> P (f i s')) -> P s -> P (for_down n f s).
Proof.
  induction n as [|n IH]; intros s Hf Hs; simpl; [exact Hs|].
  apply IH; [exact Hf|]. apply Hf, Hs.
Qed.

(** Case analysis on every integer comparison of the goal. *)
Ltac zcases :=
  repeat match goal with
    | |- context [?a <=? ?b] => destruct (Z.leb_spec a b)
    | |- context [?a <? ?b] => destruct (Z.ltb_spec a b)
    | |- context [?a =? ?b] => destruct (Z.eqb_spec a b)
    end;
  simpl; try lia; try reflexivity.

(** A loop that stores [g i] into cell [i + d], for [i] from [a]. *)
Lemma for_up_fill (g : Z -> Z) (d : Z) (n : nat) :
  forall a r t,
    0 <= a + d -> (Z.to_nat (a + d) + n <= length r)%nat -> 0 <= t ->
    rd (for_up a n (fun i res => wr res (i + d) (g i)) r) t =
    if (a + d <=? t) && (t <? a + d + Z.of_nat n) then g (t - d) else rd r t.
Proof.
  induction n as [|n IH]; intros a r t Ha Hlen Ht; simpl for_up.
  - zcases.
  - rewrite IH by (rewrite ?length_wr; lia).
    rewrite rd_wr by lia.
    zcases. f_equal. lia.
Qed.

(** A loop that stores into cell [i + d] a value made from cell [i] of the
    source and from the carry that the previous iteration left. *)
Lemma for_up_carry (v : Z -> Z -> Z) (h : Z -> Z) (d : Z) (n : nat) :
  forall a r c t,
    0 <= a + d -> (Z.to_nat (a + d) + n <= length r)%nat -> 0 <= t ->
    rd (fst (for_up a n
               (fun i '(res, carry) => (wr res (i + d) (v i carry), h i))
               (r, c))) t =
    if (a + d <=? t) && (t <? a + d + Z.of_nat n)
    then v (t - d) (if t - d =? a then c else h (t - d - 1))
    else rd r t.
Proof.
  induction n as [|n IH]; intros a r c t Ha Hlen Ht; simpl for_up.
  - zcases.
  - rewrite IH by (rewrite ?length_wr; lia).
    rewrite rd_wr by lia.
    zcases; repeat f_equal; lia.
Qed.

(** The same, for a loop that runs downwards and stores into cell [i]. *)
Lemma for_down_carry (v : Z -> Z -> Z) (h : Z -> Z) (n : nat) :
  forall r c t,
    (n <= length r)%nat -> 0 <= t ->
    rd (fst (for_down n
               (fun i '(res, carry) => (wr res i (v i carry), h i))
               (r, c))) t =
    if t <? Z.of_nat n
    then v t (if t =? Z.of_nat n - 1 then c else h (t + 1))
    else rd r t.
Proof.
  induction n as [|n IH]; intros r c t Hlen Ht; simpl for_down.
  - zcases.
  - rewrite IH by (rewrite ?length_wr; lia).
    rewrite rd_wr by lia.
    zcases; repeat f_equal; lia.
Qed.

(** ** Containers as bit sequences *)

Lemma bit_at (x : bytes) (q m : Z) :
  0 <= m < 8 -> bit x (8 * q + m) = Z.testbit (rd x q) m.
Proof.
  intros Hm. unfold bit.
  replace ((8 * q + m) / 8) with q by (apply (Z.div_unique _ _ q m); lia).
  replace ((8 * q + m) mod 8) with m by (apply (Z.mod_unique _ _ q m); lia).
  reflexivity.
Qed.

Section Shifts.

Variable N : Z.
Hypothesis N_pos : 0 < N.
(** The number of bits of the container is a [size_t] value. *)
Hypothesis N_fits : N * 8 < 2 ^ SIZE_BITS.

Lemma length_zero : length (zero N) = Z.to_nat N.
Proof. unfold zero. apply length_replicate. Qed.

Lemma rd_zero (t : Z) : rd (zero N) t = 0.
Proof.
  unfold rd, zero.
  destruct (replicate (Z.to_nat N) 0 !! Z.to_nat t) as [b|] eqn:E; simpl;
    [|reflexivity].
  apply lookup_replicate in E. tauto.
Qed.

Lemma valid_zero : valid N (zero N).
Proof.
  split; [apply length_zero|].
  unfold zero. apply Forall_replicate. unfold is_byte. lia.
Qed.

Lemma valid_wr (x : bytes) (i v : Z) : valid N x -> is_byte v -> valid N (wr x i v).
Proof.
  intros [Hl Hb] Hv. split; [rewrite length_wr; exact Hl|].
  unfold wr. apply Forall_insert; assumption.
Qed.

Lemma bit_zero (j : Z) : bit (zero N) j = false.
Proof. unfold bit. rewrite rd_zero. apply Z.testbit_0_l. Qed.

Lemma size_bits : to_size (N * 8) = N * 8.
Proof. apply to_size_small. unfold is_size. lia. Qed.

(** Two containers with the same bits are the same container. *)
Lemma bit_ext (x y : bytes) :
  valid N x -> valid N y ->
  (forall j, 0 <= j < N * 8 -> bit x j = bit y j) ->
  x = y.
Proof.
  intros [Hlx Hbx] [Hly Hby] H. apply rd_ext; [congruence|].
  intros i Hi. apply Z.bits_inj'. intros m Hm.
  destruct (Z.lt_ge_cases m 8) as [Hlt|Hge].
  - rewrite <- !(bit_at _ i m) by lia. apply H. lia.
  - rewrite !testbit_byte_high by (auto using rd_is_byte). reflexivity.
Qed.

(** The bytes of [x << shift_bits]. *)
Lemma shl_bytes (x : bytes) (shift_bits t : Z) :
  valid N x -> 0 < shift_bits < N * 8 -> 0 <= t ->
  rd (shl N x shift_bits) t =
  let byte_shift := shift_bits / 8 in
  let bit_shift := shift_bits mod 8 in
  if (byte_shift <=? t) && (t <? N) then
    if bit_shift =? 0 then rd x (t - byte_shift)
    else to_byte (Z.lor (Z.shiftl (rd x (t - byte_shift)) bit_shift)
                        (if t - byte_shift =? 0 then 0
                         else to_byte (Z.shiftr (rd x (t - byte_shift - 1))
                                                (8 - bit_shift))))
  else 0.
Proof.
  intros [Hlen Hbytes] Hs Ht. unfold shl. rewrite size_bits.
  assert (Hbs : 0 <= shift_bits / 8 < N) by (split; [apply Z.div_pos|apply Z.div_lt_upper_bound]; lia).
  assert (Hk : 0 <= shift_bits mod 8 < 8) by (apply Z.mod_pos_bound; lia).
  set (bs := shift_bits / 8) in *. set (k := shift_bits mod 8) in *. cbv zeta.
  replace (shift_bits =? 0) with false by (symmetry; apply Z.eqb_neq; lia).
  replace (N * 8 <=? shift_bits) with false by (symmetry; apply Z.leb_gt; lia).
  destruct (Z.eqb_spec k 0) as [Hk0|Hk0].
  - rewrite (for_up_ext _ (fun i res => wr res (i + 0) ((fun i => rd x (i - bs)) i))).
    + rewrite for_up_fill by (rewrite ?length_zero; lia).
      rewrite rd_zero. zcases. f_equal. lia.
    + intros i s' Hi. rewrite to_size_small by (unfold is_size; lia).
      f_equal. lia.
  - rewrite (to_size_small (N - bs)) by (unfold is_size; lia).
    rewrite (for_up_ext _
      (fun i '(res, carry) =>
         (wr res (i + bs) ((fun i c => to_byte (Z.lor (Z.shiftl (rd x i) k) c)) i carry),
          (fun i => to_byte (Z.shiftr (rd x i) (8 - k))) i))).
    + rewrite for_up_carry by (rewrite ?length_zero; lia).
      rewrite rd_zero. zcases; repeat f_equal; lia.
    + intros i [res carry] Hi.
      rewrite !to_size_small by (unfold is_size; lia). reflexivity.
Qed.

(** The bytes of [x >> shift_bits]. *)
Lemma shr_bytes (x : bytes) (shift_bits t : Z) :
  valid N x -> 0 < shift_bits < N * 8 -> 0 <= t ->
  rd (shr N x shift_bits) t =
  let byte_shift := shift_bits / 8 in
  let bit_shift := shift_bits mod 8 in
  if t <? N - byte_shift then
    if bit_shift =? 0 then rd x (t + byte_shift)
    else to_byte (Z.lor (Z.shiftr (rd x (t + byte_shift)) bit_shift)
                        (if t =? N - byte_shift - 1 then 0
                         else to_byte (Z.shiftl (rd x (t + byte_shift + 1))
                                                (8 - bit_shift))))
  else 0.
Proof.
  intros [Hlen Hbytes] Hs Ht. unfold shr. rewrite size_bits.
  assert (Hbs : 0 <= shift_bits / 8 < N) by (split; [apply Z.div_pos|apply Z.div_lt_upper_bound]; lia).
  assert (Hk : 0 <= shift_bits mod 8 < 8) by (apply Z.mod_pos_bound; lia).
  set (bs := shift_bits / 8) in *. set (k := shift_bits mod 8) in *. cbv zeta.
  replace (shift_bits =? 0) with false by (symmetry; apply Z.eqb_neq; lia).
  replace (N * 8 <=? shift_bits) with false by (symmetry; apply Z.leb_gt; lia).
  rewrite (to_size_small (N - bs)) by (unfold is_size; lia).
  destruct (Z.eqb_spec k 0) as [Hk0|Hk0].
  - rewrite (for_up_ext _ (fun i res => wr res (i + 0) ((fun i => rd x (i + bs)) i))).
    + rewrite for_up_fill by (rewrite ?length_zero; lia).
      rewrite rd_zero. zcases. f_equal. lia.
    + intros i s' Hi. rewrite to_size_small by (unfold is_size; lia).
      f_equal. lia.
  - rewrite (for_down_ext _
      (fun i '(res, carry) =>
         (wr res i ((fun i c => to_byte (Z.lor (Z.shiftr (rd x (i + bs)) k) c)) i carry),
          (fun i => to_byte (Z.shiftl (rd x (i + bs)) (8 - k))) i))).
    + rewrite for_down_carry by (rewrite ?length_zero; lia).
      rewrite rd_zero. replace (t + 1 + bs) with (t + bs + 1) by lia. zcases.
    + intros i [res carry] Hi.
      rewrite !to_size_small by (unfold is_size; lia). reflexivity.
Qed.

(** Bit [j] of [x << shift_bits]. *)
Lemma shl_bit (x : bytes) (shift_bits j : Z) :
  valid N x -> 0 < shift_bits < N * 8 -> 0 <= j < N * 8 ->
  bit (shl N x shift_bits) j =
  if shift_bits <=? j then bit x (j - shift_bits) else false.
Proof.
  intros Hv Hs Hj.
  pose proof (Z.div_mod j 8 ltac:(lia)) as Ej.
  pose proof (Z.mod_pos_bound j 8 ltac:(lia)) as Hm.
  pose proof (Z.div_mod shift_bits 8 ltac:(lia)) as Es.
  pose proof (Z.mod_pos_bound shift_bits 8 ltac:(lia)) as Hk.
  unfold bit at 1. rewrite shl_bytes by (try assumption; apply Z.div_pos; lia).
  cbv zeta.
  set (q := j / 8) in *. set (m := j mod 8) in *.
  set (bs := shift_bits / 8) in *. set (k := shift_bits mod 8) in *.
  destruct (Z.leb_spec bs q) as [Hq|Hq]; simpl.
  - replace (q <? N) with true by (symmetry; apply Z.ltb_lt; lia).
    destruct (Z.eqb_spec k 0) as [Hk0|Hk0].
    + replace (shift_bits <=? j) with true by (symmetry; apply Z.leb_le; lia).
      replace (j - shift_bits) with (8 * (q - bs) + m) by lia.
      rewrite bit_at by lia. reflexivity.
    + rewrite testbit_to_byte, Z.lor_spec, Z.shiftl_spec by lia.
      destruct (Z.eqb_spec (q - bs) 0) as [Hq0|Hq0].
      * rewrite Z.testbit_0_l, Bool.orb_false_r.
        destruct (Z.leb_spec shift_bits j) as [Hle|Hgt].
        -- replace (j - shift_bits) with (8 * (q - bs) + (m - k)) by lia.
           rewrite bit_at by lia. reflexivity.
        -- apply Z.testbit_neg_r. lia.
      * replace (shift_bits <=? j) with true by (symmetry; apply Z.leb_le; lia).
        rewrite testbit_to_byte, Z.shiftr_spec by lia.
        destruct (Z.lt_ge_cases m k) as [Hlt|Hge].
        -- rewrite (Z.testbit_neg_r _ (m - k)) by lia. simpl.
           replace (j - shift_bits) with (8 * (q - bs - 1) + (m + (8 - k))) by lia.
           rewrite bit_at by lia. reflexivity.
        -- rewrite (testbit_byte_high _ (m + (8 - k)))
             by (try lia; apply rd_is_byte, Hv).
           rewrite Bool.orb_false_r.
           replace (j - shift_bits) with (8 * (q - bs) + (m - k)) by lia.
           rewrite bit_at by lia. reflexivity.
  - replace (shift_bits <=? j) with false by (symmetry; apply Z.leb_gt; lia).
    apply Z.testbit_0_l.
Qed.

(** Bit [j] of [x >> shift_bits]. *)
Lemma shr_bit (x : bytes) (shift_bits j : Z) :
  valid N x -> 0 < shift_bits < N * 8 -> 0 <= j < N * 8 ->
  bit (shr N x shift_bits) j =
  if j + shift_bits <? N * 8 then bit x (j + shift_bits) else false.
Proof.
  intros Hv Hs Hj.
  pose proof (Z.div_mod j 8 ltac:(lia)) as Ej.
  pose proof (Z.mod_pos_bound j 8 ltac:(lia)) as Hm.
  pose proof (Z.div_mod shift_bits 8 ltac:(lia)) as Es.
  pose proof (Z.mod_pos_bound shift_bits 8 ltac:(lia)) as Hk.
  unfold bit at 1. rewrite shr_bytes by (try assumption; apply Z.div_pos; lia).
  cbv zeta.
  set (q := j / 8) in *. set (m := j mod 8) in *.
  set (bs := shift_bits / 8) in *. set (k := shift_bits mod 8) in *.
  destruct (Z.ltb_spec q (N - bs)) as [Hq|Hq].
  - destruct (Z.eqb_spec k 0) as [Hk0|Hk0].
    + replace (j + shift_bits <? N * 8) with true by (symmetry; apply Z.ltb_lt; lia).
      replace (j + shift_bits) with (8 * (q + bs) + m) by lia.
      rewrite bit_at by lia. reflexivity.
    + rewrite testbit_to_byte, Z.lor_spec, Z.shiftr_spec by lia.
      destruct (Z.eqb_spec q (N - bs - 1)) as [Hq0|Hq0].
      * rewrite Z.testbit_0_l, Bool.orb_false_r.
        destruct (Z.ltb_spec (j + shift_bits) (N * 8)) as [Hlt|Hge].
        -- replace (j + shift_bits) with (8 * (q + bs) + (m + k)) by lia.
           rewrite bit_at by lia. reflexivity.
        -- apply testbit_byte_high; [apply rd_is_byte, Hv|lia].
      * replace (j + shift_bits <? N * 8) with true by (symmetry; apply Z.ltb_lt; lia).
        rewrite testbit_to_byte, Z.shiftl_spec by lia.
        destruct (Z.lt_ge_cases (m + k) 8) as [Hlt|Hge].
        -- rewrite (Z.testbit_neg_r _ (m - (8 - k))) by lia.
           rewrite Bool.orb_false_r.
           replace (j + shift_bits) with (8 * (q + bs) + (m + k)) by lia.
           rewrite bit_at by lia. reflexivity.
        -- rewrite (testbit_byte_high _ (m + k))
             by (try lia; apply rd_is_byte, Hv).
           simpl.
           replace (j + shift_bits) with (8 * (q + bs + 1) + (m - (8 - k))) by lia.
           rewrite bit_at by lia. reflexivity.
  - replace (j + shift_bits <? N * 8) with false by (symmetry; apply Z.ltb_ge; lia).
    apply Z.testbit_0_l.
Qed.

Lemma valid_shl (x : bytes) (shift_bits : Z) :
  valid N x -> valid N (shl N x shift_bits).
Proof.
  intros Hv. unfold shl.
  destruct (shift_bits =? 0); [exact Hv|].
  destruct (to_size (N * 8) <=? shift_bits); [exact valid_zero|].
  destruct (shift_bits mod 8 =? 0).
  - apply for_up_inv; [|exact valid_zero].
    intros i s' Hs'. apply valid_wr; [exact Hs'|]. apply rd_is_byte, Hv.
  - apply (for_up_inv (fun s => valid N (fst s))); [|exact valid_zero].
    intros i [res carry] Hs'. simpl in *.
    apply valid_wr; [exact Hs'|]. apply to_byte_is_byte.
Qed.

Lemma valid_shr (x : bytes) (shift_bits : Z) :
  valid N x -> valid N (shr N x shift_bits).
Proof.
  intros Hv. unfold shr.
  destruct (shift_bits =? 0); [exact Hv|].
  destruct (to_size (N * 8) <=? shift_bits); [exact valid_zero|].
  destruct (shift_bits mod 8 =? 0).
  - apply for_up_inv; [|exact valid_zero].
    intros i s' Hs'. apply valid_wr; [exact Hs'|]. apply rd_is_byte, Hv.
  - apply (for_down_inv (fun s => valid N (fst s))); [|exact valid_zero].
    intros i [res carry] Hs'. simpl in *.
    apply valid_wr; [exact Hs'|]. apply to_byte_is_byte.
Qed.

Lemma shl_0 (x : bytes) : shl N x 0 = x.
Proof. reflexivity. Qed.

Lemma shr_0 (x : bytes) : shr N x 0 = x.
Proof. reflexivity. Qed.

Lemma shl_saturates (x : bytes) (shift_bits : Z) :
  N * 8 <= shift_bits -> shl N x shift_bits = zero N.
Proof.
  intros H. unfold shl. rewrite size_bits.
  replace (shift_bits =? 0) with false by (symmetry; apply Z.eqb_neq; lia).
  replace (N * 8 <=? shift_bits) with true by (symmetry; apply Z.leb_le; lia).
  reflexivity.
Qed.

Lemma shr_saturates (x : bytes) (shift_bits : Z) :
  N * 8 <= shift_bits -> shr N x shift_bits = zero N.
Proof.
  intros H. unfold shr. rewrite size_bits.
  replace (shift_bits =? 0) with false by (symmetry; apply Z.eqb_neq; lia).
  replace (N * 8 <=? shift_bits) with true by (symmetry; apply Z.leb_le; lia).
  reflexivity.
Qed.

(** *** Byte-wise operators *)

Lemma valid_bor (x y : bytes) : valid N (bor N x y).
Proof.
  unfold bor. apply for_up_inv; [|exact valid_zero].
  intros i s' Hs'. apply valid_wr; [exact Hs'|]. apply to_byte_is_byte.
Qed.

Lemma bor_bytes (x y : bytes) (t : Z) :
  0 <= t < N -> rd (bor N x y) t = to_byte (Z.lor (rd x t) (rd y t)).
Proof.
  intros Ht. unfold bor.
  rewrite (for_up_ext _
    (fun i res => wr res (i + 0) ((fun i => to_byte (Z.lor (rd x i) (rd y i))) i))).
  - rewrite for_up_fill by (rewrite ?length_zero; lia).
    zcases. f_equal; f_equal; f_equal; lia.
  - intros i s' Hi. f_equal. lia.
Qed.

Lemma band_bytes (x y : bytes) (t : Z) :
  0 <= t < N -> rd (band N x y) t = to_byte (Z.land (rd x t) (rd y t)).
Proof.
  intros Ht. unfold band.
  rewrite (for_up_ext _
    (fun i res => wr res (i + 0) ((fun i => to_byte (Z.land (rd x i) (rd y i))) i))).
  - rewrite for_up_fill by (rewrite ?length_zero; lia).
    zcases. f_equal; f_equal; f_equal; lia.
  - intros i s' Hi. f_equal. lia.
Qed.

Lemma valid_band (x y : bytes) : valid N (band N x y).
Proof.
  unfold band. apply for_up_inv; [|exact valid_zero].
  intros i s' Hs'. apply valid_wr; [exact Hs'|]. apply to_byte_is_byte.
Qed.

Lemma index_of_bit (j : Z) :
  0 <= j < N * 8 -> 0 <= j / 8 < N /\ 0 <= j mod 8 < 8.
Proof.
  intros Hj. split; [|apply Z.mod_pos_bound; lia].
  split; [apply Z.div_pos; lia|apply Z.div_lt_upper_bound; lia].
Qed.

Lemma bor_bit (x y : bytes) (j : Z) :
  0 <= j < N * 8 -> bit (bor N x y) j = bit x j || bit y j.
Proof.
  intros Hj. destruct (index_of_bit j Hj) as [Hq Hm]. unfold bit.
  rewrite bor_bytes, testbit_to_byte, Z.lor_spec by lia. reflexivity.
Qed.

Lemma band_bit (x y : bytes) (j : Z) :
  0 <= j < N * 8 -> bit (band N x y) j = bit x j && bit y j.
Proof.
  intros Hj. destruct (index_of_bit j Hj) as [Hq Hm]. unfold bit.
  rewrite band_bytes, testbit_to_byte, Z.land_spec by lia. reflexivity.
Qed.

(** *** The defaulted equality *)

Lemma equal_loop (x y : bytes) (n : nat) :
  forall a r,
    for_up a n (fun i r => r && (rd x i =? rd y i)) r = true <->
    r = true /\ forall i, a <= i < a + Z.of_nat n -> rd x i = rd y i.
Proof.
  induction n as [|n IH]; intros a r; simpl for_up.
  - split; [intros ->; split; [reflexivity|intros; lia]|tauto].
  - rewrite IH, Bool.andb_true_iff, Z.eqb_eq. split.
    + intros [[Hr Ha] Hi]. split; [exact Hr|]. intros i Hlt.
      destruct (Z.eq_dec i a) as [->|Hne]; [exact Ha|]. apply Hi. lia.
    + intros [Hr Hi]. repeat split; [exact Hr|apply Hi; lia|].
      intros i Hlt. apply Hi. lia.
Qed.

Lemma equal_iff (x y : bytes) :
  valid N x -> valid N y -> (equal N x y = true <-> x = y).
Proof.
  intros [Hlx _] [Hly _]. unfold equal. rewrite equal_loop. split.
  - intros [_ H]. apply rd_ext; [congruence|]. intros i Hi. apply H. lia.
  - intros ->. split; [reflexivity|]. intros; reflexivity.
Qed.

Lemma equal_refl (x : bytes) : equal N x x = true.
Proof.
  unfold equal. apply equal_loop. split; [reflexivity|]. intros; reflexivity.
Qed.

(** *** Rotations *)

Lemma rotate_left_unfold (x : bytes) (n : Z) :
  0 <= n < N * 8 ->
  rotate_left N x n = bor N (shl N x n) (shr N x (N * 8 - n)).
Proof.
  intros Hn. unfold rotate_left. rewrite size_bits.
  rewrite (Z.mod_small n) by lia.
  rewrite (to_size_small (N * 8 - n)) by (unfold is_size; lia).
  reflexivity.
Qed.

Lemma rotate_right_unfold (x : bytes) (n : Z) :
  0 <= n < N * 8 ->
  rotate_right N x n = bor N (shr N x n) (shl N x (N * 8 - n)).
Proof.
  intros Hn. unfold rotate_right. rewrite size_bits.
  rewrite (Z.mod_small n) by lia.
  rewrite (to_size_small (N * 8 - n)) by (unfold is_size; lia).
  reflexivity.
Qed.

(** The two halves of a left rotation: the left shift holds the bits from
    position [n] upwards, the right shift those below [n]. *)
Lemma rotate_left_halves (x : bytes) (n j : Z) :
  valid N x -> 0 <= n < N * 8 -> 0 <= j < N * 8 ->
  (n <= j ->
   bit (shl N x n) j = bit x (j - n) /\ bit (shr N x (N * 8 - n)) j = false) /\
  (j < n ->
   bit (shl N x n) j = false /\
   bit (shr N x (N * 8 - n)) j = bit x (j + (N * 8 - n))).
Proof.
  intros Hv Hn Hj.
  destruct (Z.eq_dec n 0) as [->|Hn0].
  - rewrite !Z.sub_0_r, shl_0, shr_saturates by lia.
    split; [|lia]. intros _. rewrite bit_zero. tauto.
  - rewrite shl_bit, shr_bit by (auto; lia). split; intros H.
    + replace (n <=? j) with true by (symmetry; apply Z.leb_le; lia).
      replace (j + (N * 8 - n) <? N * 8) with false
        by (symmetry; apply Z.ltb_ge; lia).
      tauto.
    + replace (n <=? j) with false by (symmetry; apply Z.leb_gt; lia).
      replace (j + (N * 8 - n) <? N * 8) with true
        by (symmetry; apply Z.ltb_lt; lia).
      tauto.
Qed.

Lemma rotate_right_halves (x : bytes) (n j : Z) :
  valid N x -> 0 <= n < N * 8 -> 0 <= j < N * 8 ->
  (j + n < N * 8 ->
   bit (shr N x n) j = bit x (j + n) /\ bit (shl N x (N * 8 - n)) j = false) /\
  (N * 8 <= j + n ->
   bit (shr N x n) j = false /\
   bit (shl N x (N * 8 - n)) j = bit x (j - (N * 8 - n))).
Proof.
  intros Hv Hn Hj.
  destruct (Z.eq_dec n 0) as [->|Hn0].
  - rewrite Z.sub_0_r, Z.add_0_r, shr_0, shl_saturates by lia.
    split; [|lia]. intros _. rewrite bit_zero. tauto.
  - rewrite shl_bit, shr_bit by (auto; lia). split; intros H.
    + replace (j + n <? N * 8) with true by (symmetry; apply Z.ltb_lt; lia).
      replace (N * 8 - n <=? j) with false by (symmetry; apply Z.leb_gt; lia).
      tauto.
    + replace (j + n <? N * 8) with false by (symmetry; apply Z.ltb_ge; lia).
      replace (N * 8 - n <=? j) with true by (symmetry; apply Z.leb_le; lia).
      tauto.
Qed.

(** A left rotation moves bit [j - n] (modulo the number of bits) to
    position [j]. *)
Lemma rotate_left_bit (x : bytes) (n j : Z) :
  valid N x -> 0 <= n < N * 8 -> 0 <= j < N * 8 ->
  bit (rotate_left N x n) j = bit x ((j - n) mod (N * 8)).
Proof.
  intros Hv Hn Hj. rewrite rotate_left_unfold, bor_bit by lia.
  destruct (rotate_left_halves x n j Hv Hn Hj) as [Hhi Hlo].
  destruct (Z.le_gt_cases n j) as [H|H].
  - destruct (Hhi H) as [-> ->]. rewrite Bool.orb_false_r.
    rewrite Z.mod_small by lia. reflexivity.
  - destruct (Hlo H) as [-> ->]. simpl. f_equal.
    apply (Z.mod_unique _ _ (-1)); lia.
Qed.

Lemma rotate_right_bit (x : bytes) (n j : Z) :
  valid N x -> 0 <= n < N * 8 -> 0 <= j < N * 8 ->
  bit (rotate_right N x n) j = bit x ((j + n) mod (N * 8)).
Proof.
  intros Hv Hn Hj. rewrite rotate_right_unfold, bor_bit by lia.
  destruct (rotate_right_halves x n j Hv Hn Hj) as [Hlo Hhi].
  destruct (Z.lt_ge_cases (j + n) (N * 8)) as [H|H].
  - destruct (Hlo H) as [-> ->]. rewrite Bool.orb_false_r.
    rewrite Z.mod_small by lia. reflexivity.
  - destruct (Hhi ltac:(lia)) as [-> ->]. simpl. f_equal.
    apply (Z.mod_unique _ _ 1); lia.
Qed.

Lemma rotate_left_right (x : bytes) (n : Z) :
  valid N x -> 0 <= n < N * 8 ->
  rotate_right N (rotate_left N x n) n = x.
Proof.
  intros Hv Hn. apply bit_ext; [| exact Hv |].
  - rewrite rotate_right_unfold by lia. apply valid_bor.
  - intros j Hj.
    assert (Hv' : valid N (rotate_left N x n))
      by (rewrite rotate_left_unfold by lia; apply valid_bor).
    rewrite rotate_right_bit by auto.
    rewrite rotate_left_bit
      by (auto; apply Z.mod_pos_bound; lia).
    rewrite Zminus_mod_idemp_l. replace (j + n - n) with j by lia.
    rewrite Z.mod_small by lia. reflexivity.
Qed.

Lemma rotate_halves_disjoint (x : bytes) (n : Z) :
  valid N x -> 0 <= n < N * 8 ->
  band N (shl N x n) (shr N x (N * 8 - n)) = zero N.
Proof.
  intros Hv Hn. apply bit_ext; [apply valid_band|apply valid_zero|].
  intros j Hj. rewrite band_bit, bit_zero by lia.
  destruct (rotate_left_halves x n j Hv Hn Hj) as [Hhi Hlo].
  destruct (Z.le_gt_cases n j) as [H|H].
  - destruct (Hhi H) as [_ ->]. apply Bool.andb_false_r.
  - destruct (Hlo H) as [-> _]. reflexivity.
Qed.

End Shifts.

(** ** Shifts and rotations: the claims *)

(** Proves that a list is a well-formed container of the given size. *)
Ltac valid_tac :=
  split; [reflexivity | repeat constructor; unfold is_byte; lia].

(** C1: for a container [x] of [N] bytes and [0 < shift_bits < N * 8],
    [x << shift_bits] and [x >> shift_bits] are logical shifts of the
    [N * 8] bits of the buffer, byte 0 holding the lowest bits: bit [j] of
    [x << shift_bits] is bit [j - shift_bits] of [x] when [shift_bits <= j]
    and 0 otherwise; bit [j] of [x >> shift_bits] is bit [j + shift_bits] of
    [x] when [j + shift_bits < N * 8] and 0 otherwise.  The results are
    containers of [N] bytes again, so what is shifted out is lost. *)
Theorem shift_is_logical (N : Z) (x : bytes) (shift_bits j : Z) :
  0 < N -> N * 8 < 2 ^ SIZE_BITS -> valid N x ->
  0 < shift_bits < N * 8 -> 0 <= j < N * 8 ->
  bit (shl N x shift_bits) j =
    (if shift_bits <=? j then bit x (j - shift_bits) else false) /\
  bit (shr N x shift_bits) j =
    (if j + shift_bits <? N * 8 then bit x (j + shift_bits) else false) /\
  valid N (shl N x shift_bits) /\ valid N (shr N x shift_bits).
Proof.
  intros HN Hfit Hv Hs Hj. repeat split.
  - apply shl_bit; assumption.
  - apply shr_bit; assumption.
  - apply valid_shl, Hv.
  - apply valid_shl, Hv.
  - apply valid_shr, Hv.
  - apply valid_shr, Hv.
Qed.

Lemma shift_is_logical_witness :
  bit (shl 4 [4; 3; 2; 1] 9) 12 =
    (if 9 <=? 12 then bit [4; 3; 2; 1] (12 - 9) else false) /\
  bit (shr 4 [4; 3; 2; 1] 9) 12 =
    (if 12 + 9 <? 4 * 8 then bit [4; 3; 2; 1] (12 + 9) else false) /\
  valid 4 (shl 4 [4; 3; 2; 1] 9) /\ valid 4 (shr 4 [4; 3; 2; 1] 9).
Proof.
  apply (shift_is_logical 4 [4; 3; 2; 1] 9 12);
    [lia | reflexivity | valid_tac | lia | lia].
Defined.

(** C2: for [0 <= n < N * 8], rotating left by [n] and then right by [n]
    gives the container back.  The left rotation is the OR of
    [x << (n mod N*8)] and [x >> (N*8 - n mod N*8)]; at every position
    exactly one of the two shifted halves carries a bit of [x] and the other
    one is zero there, so the halves are disjoint and every bit of [x]
    appears once in the result. *)
Theorem rotate_left_then_right (N : Z) (x : bytes) (n : Z) :
  0 < N -> N * 8 < 2 ^ SIZE_BITS -> valid N x -> 0 <= n < N * 8 ->
  rotate_right N (rotate_left N x n) n = x /\
  equal N (rotate_right N (rotate_left N x n) n) x = true /\
  rotate_left N x n =
    bor N (shl N x (n mod (N * 8))) (shr N x (N * 8 - n mod (N * 8))) /\
  band N (shl N x (n mod (N * 8))) (shr N x (N * 8 - n mod (N * 8))) = zero N /\
  forall j, 0 <= j < N * 8 ->
    bit (rotate_left N x n) j = bit x ((j - n) mod (N * 8)) /\
    (n <= j ->
     bit (shl N x n) j = bit x (j - n) /\
     bit (shr N x (N * 8 - n)) j = false) /\
    (j < n ->
     bit (shl N x n) j = false /\
     bit (shr N x (N * 8 - n)) j = bit x (j + (N * 8 - n))).
Proof.
  intros HN Hfit Hv Hn.
  rewrite (Z.mod_small n (N * 8)) by lia.
  rewrite rotate_left_right by assumption.
  split; [reflexivity|]. split; [apply equal_refl|].
  split; [apply rotate_left_unfold; assumption|].
  split; [apply rotate_halves_disjoint; assumption|].
  intros j Hj. split; [apply rotate_left_bit; assumption|].
  apply rotate_left_halves; assumption.
Qed.

Lemma rotate_left_then_right_witness :
  rotate_right 4 (rotate_left 4 [4; 3; 2; 1] 13) 13 = [4; 3; 2; 1].
Proof.
  apply (rotate_left_then_right 4 [4; 3; 2; 1] 13);
    [lia | reflexivity | valid_tac | lia].
Defined.

(** C6: a shift by 0, in either direction, returns the container itself,
    and a shift by [N * 8] bits or more returns the all-zero container. *)
Theorem shift_identity_saturation (N : Z) (x : bytes) :
  0 < N -> N * 8 < 2 ^ SIZE_BITS ->
  (shl N x 0 = x /\ shr N x 0 = x /\
   equal N (shl N x 0) x = true /\ equal N (shr N x 0) x = true) /\
  (forall shift_bits, N * 8 <= shift_bits ->
     shl N x shift_bits = zero N /\ shr N x shift_bits = zero N /\
     equal N (shl N x shift_bits) (zero N) = true /\
     equal N (shr N x shift_bits) (zero N) = true).
Proof.
  intros HN Hfit. split.
  - rewrite shl_0, shr_0. repeat split; apply equal_refl.
  - intros shift_bits Hs.
    rewrite shl_saturates, shr_saturates by assumption.
    repeat split; apply equal_refl.
Qed.

Lemma shift_identity_saturation_witness :
  shl 4 [4; 3; 2; 1] 0 = [4; 3; 2; 1] /\
  shl 4 [4; 3; 2; 1] 32 = [0; 0; 0; 0] /\
  shr 4 [4; 3; 2; 1] 77 = [0; 0; 0; 0].
Proof.
  pose proof (shift_identity_saturation 4 [4; 3; 2; 1]
                ltac:(lia) ltac:(reflexivity)) as [Hid Hsat].
  split; [apply Hid|].
  split; [apply (Hsat 32); lia | apply (Hsat 77); lia].
Defined.

(** ** Single bits *)

Section Bits.

Variable N : Z.
Hypothesis N_pos : 0 < N.
Hypothesis N_fits : N * 8 < 2 ^ SIZE_BITS.

Lemma testbit_one_shifted (k m : Z) :
  0 <= k -> 0 <= m -> Z.testbit (Z.shiftl 1 k) m = (k =? m).
Proof.
  intros Hk Hm. rewrite Z.shiftl_1_l. apply Z.pow2_bits_eqb. exact Hk.
Qed.

Lemma land_one_shifted (d k : Z) :
  0 <= k ->
  Z.land d (Z.shiftl 1 k) = if Z.testbit d k then Z.shiftl 1 k else 0.
Proof.
  intros Hk. apply Z.bits_inj'. intros m Hm.
  rewrite Z.land_spec, testbit_one_shifted by lia.
  destruct (Z.eqb_spec k m) as [->|Hne].
  - destruct (Z.testbit d m) eqn:E; simpl.
    + rewrite testbit_one_shifted by lia. symmetry. apply Z.eqb_refl.
    + symmetry. apply Z.testbit_0_l.
  - rewrite Bool.andb_false_r.
    destruct (Z.testbit d k).
    + rewrite testbit_one_shifted by lia. symmetry. apply Z.eqb_neq. exact Hne.
    + symmetry. apply Z.testbit_0_l.
Qed.

(** Inside of the container, [test_bit] reads the bit sequence [bit]. *)
Lemma test_bit_bit (x : bytes) (j : Z) :
  0 <= j < N * 8 -> test_bit N x j = bit x j.
Proof.
  intros Hj. destruct (index_of_bit N j Hj) as [Hq Hm].
  unfold test_bit, bit. rewrite size_bits by assumption.
  replace (N * 8 <=? j) with false by (symmetry; apply Z.leb_gt; lia).
  rewrite land_one_shifted by lia.
  destruct (Z.testbit (rd x (j / 8)) (j mod 8)); [|reflexivity].
  rewrite Z.shiftl_1_l.
  pose proof (Z.pow_pos_nonneg 2 (j mod 8) ltac:(lia) ltac:(lia)) as Hpos.
  replace (2 ^ (j mod 8) =? 0) with false by (symmetry; apply Z.eqb_neq; lia).
  reflexivity.
Qed.

(** One cell rewritten so that only bit [p mod 8] of it may differ. *)
Lemma bit_wr_frame (x : bytes) (p j v : Z) :
  valid N x -> 0 <= p < N * 8 -> 0 <= j < N * 8 -> j <> p ->
  (forall m, 0 <= m < 8 -> m <> p mod 8 ->
             Z.testbit v m = Z.testbit (rd x (p / 8)) m) ->
  bit (wr x (p / 8) v) j = bit x j.
Proof.
  intros [Hlen _] Hp Hj Hne Hv.
  destruct (index_of_bit N p Hp) as [Hpq Hpm].
  destruct (index_of_bit N j Hj) as [Hjq Hjm].
  unfold bit. rewrite rd_wr by lia.
  destruct (Z.eqb_spec (j / 8) (p / 8)) as [Heq|Hneq]; [|reflexivity].
  rewrite Heq. apply Hv; [lia|].
  intros Hm. apply Hne.
  rewrite (Z.div_mod j 8), (Z.div_mod p 8) by lia. lia.
Qed.

Lemma set_bit_frame (x : bytes) (p j : Z) :
  valid N x -> 0 <= p < N * 8 -> 0 <= j < N * 8 -> j <> p ->
  bit (set_bit N x p) j = bit x j.
Proof.
  intros Hv Hp Hj Hne. unfold set_bit. rewrite size_bits by assumption.
  replace (p <? N * 8) with true by (symmetry; apply Z.ltb_lt; lia).
  destruct (index_of_bit N p Hp) as [Hpq Hpm].
  apply bit_wr_frame; auto. intros m Hm Hmk.
  rewrite testbit_to_byte, Z.lor_spec, testbit_one_shifted by lia.
  replace (p mod 8 =? m) with false by (symmetry; apply Z.eqb_neq; lia).
  apply Bool.orb_false_r.
Qed.

Lemma clear_bit_frame (x : bytes) (p j : Z) :
  valid N x -> 0 <= p < N * 8 -> 0 <= j < N * 8 -> j <> p ->
  bit (clear_bit N x p) j = bit x j.
Proof.
  intros Hv Hp Hj Hne. unfold clear_bit. rewrite size_bits by assumption.
  replace (p <? N * 8) with true by (symmetry; apply Z.ltb_lt; lia).
  destruct (index_of_bit N p Hp) as [Hpq Hpm].
  apply bit_wr_frame; auto. intros m Hm Hmk.
  rewrite testbit_to_byte, Z.land_spec, Z.lnot_spec, testbit_one_shifted by lia.
  replace (p mod 8 =? m) with false by (symmetry; apply Z.eqb_neq; lia).
  apply Bool.andb_true_r.
Qed.

Lemma toggle_bit_frame (x : bytes) (p j : Z) :
  valid N x -> 0 <= p < N * 8 -> 0 <= j < N * 8 -> j <> p ->
  bit (toggle_bit N x p) j = bit x j.
Proof.
  intros Hv Hp Hj Hne. unfold toggle_bit. rewrite size_bits by assumption.
  replace (p <? N * 8) with true by (symmetry; apply Z.ltb_lt; lia).
  destruct (index_of_bit N p Hp) as [Hpq Hpm].
  apply bit_wr_frame; auto. intros m Hm Hmk.
  rewrite testbit_to_byte, Z.lxor_spec, testbit_one_shifted by lia.
  replace (p mod 8 =? m) with false by (symmetry; apply Z.eqb_neq; lia).
  apply Bool.xorb_false_r.
Qed.

Lemma valid_set_bit (x : bytes) (p : Z) : valid N x -> valid N (set_bit N x p).
Proof.
  intros Hv. unfold set_bit. destruct (p <? to_size (N * 8)); [|exact Hv].
  apply valid_wr; [exact Hv|apply to_byte_is_byte].
Qed.

Lemma valid_clear_bit (x : bytes) (p : Z) : valid N x -> valid N (clear_bit N x p).
Proof.
  intros Hv. unfold clear_bit. destruct (p <? to_size (N * 8)); [|exact Hv].
  apply valid_wr; [exact Hv|apply to_byte_is_byte].
Qed.

Lemma valid_toggle_bit (x : bytes) (p : Z) : valid N x -> valid N (toggle_bit N x p).
Proof.
  intros Hv. unfold toggle_bit. destruct (p <? to_size (N * 8)); [|exact Hv].
  apply valid_wr; [exact Hv|apply to_byte_is_byte].
Qed.

End Bits.

(** C8: for a bit position [pos >= N * 8], [set_bit], [clear_bit] and
    [toggle_bit] return the container unchanged and [test_bit] returns
    [false]; the four operations are total functions, so there is no
    position at which they fail. *)
Theorem bit_ops_out_of_range (N : Z) (x : bytes) (pos : Z) :
  0 < N -> N * 8 < 2 ^ SIZE_BITS -> N * 8 <= pos ->
  set_bit N x pos = x /\ clear_bit N x pos = x /\ toggle_bit N x pos = x /\
  test_bit N x pos = false.
Proof.
  intros HN Hfit Hpos.
  unfold set_bit, clear_bit, toggle_bit, test_bit.
  rewrite size_bits by assumption.
  replace (pos <? N * 8) with false by (symmetry; apply Z.ltb_ge; lia).
  replace (N * 8 <=? pos) with true by (symmetry; apply Z.leb_le; lia).
  repeat split.
Qed.

Lemma bit_ops_out_of_range_witness :
  set_bit 2 [5; 9] 16 = [5; 9] /\ clear_bit 2 [5; 9] 16 = [5; 9] /\
  toggle_bit 2 [5; 9] 16 = [5; 9] /\ test_bit 2 [5; 9] 16 = false.
Proof.
  apply (bit_ops_out_of_range 2 [5; 9] 16); [lia | reflexivity | lia].
Defined.

(** C9: for a bit position [p < N * 8], [set_bit], [clear_bit] and
    [toggle_bit] leave every bit other than bit [p] as it was: the result is
    a container of [N] bytes whose bit [j] is the bit [j] of [x] for every
    [j <> p], both as the bit sequence [bit] and as read by [test_bit]. *)
Theorem bit_ops_frame (N : Z) (x : bytes) (p j : Z) :
  0 < N -> N * 8 < 2 ^ SIZE_BITS -> valid N x ->
  0 <= p < N * 8 -> 0 <= j < N * 8 -> j <> p ->
  (valid N (set_bit N x p) /\ bit (set_bit N x p) j = bit x j /\
   test_bit N (set_bit N x p) j = test_bit N x j) /\
  (valid N (clear_bit N x p) /\ bit (clear_bit N x p) j = bit x j /\
   test_bit N (clear_bit N x p) j = test_bit N x j) /\
  (valid N (toggle_bit N x p) /\ bit (toggle_bit N x p) j = bit x j /\
   test_bit N (toggle_bit N x p) j = test_bit N x j).
Proof.
  intros HN Hfit Hv Hp Hj Hne.
  rewrite !test_bit_bit by assumption.
  rewrite set_bit_frame, clear_bit_frame, toggle_bit_frame by assumption.
  pose proof (valid_set_bit N x p Hv).
  pose proof (valid_clear_bit N x p Hv).
  pose proof (valid_toggle_bit N x p Hv).
  tauto.
Qed.

Lemma bit_ops_frame_witness :
  bit (set_bit 2 [5; 9] 11) 3 = bit [5; 9] 3 /\
  bit (clear_bit 2 [5; 9] 11) 8 = bit [5; 9] 8 /\
  bit (toggle_bit 2 [5; 9] 11) 12 = bit [5; 9] 12.
Proof.
  split; [|split].
  - apply (bit_ops_frame 2 [5; 9] 11 3);
      [lia | reflexivity | valid_tac | lia | lia | lia].
  - apply (bit_ops_frame 2 [5; 9] 11 8);
      [lia | reflexivity | valid_tac | lia | lia | lia].
  - apply (bit_ops_frame 2 [5; 9] 11 12);
      [lia | reflexivity | valid_tac | lia | lia | lia].
Defined.

(** ** Element access *)

(** C7: for every index, in range or not, [operator[]] refers to the cell
    of index [min (index, N - 1)], which is a cell of the array: the const
    accessor reads the byte stored there, an assignment through the mutable
    accessor changes that cell and no other, and there is no index at which
    either of them fails. *)
Theorem subscript_clamps (N : Z) (x : bytes) (index : Z) :
  0 < N -> N < 2 ^ SIZE_BITS -> valid N x -> 0 <= index ->
  subscript_index N index = Z.min index (N - 1) /\
  0 <= subscript_index N index < N /\
  x !! Z.to_nat (Z.min index (N - 1)) = Some (rd x (Z.min index (N - 1))) /\
  subscript N x index = Some (rd x (Z.min index (N - 1))) /\
  forall v t, 0 <= t ->
    rd (subscript_assign N x index v) t =
    if t =? Z.min index (N - 1) then v else rd x t.
Proof.
  intros HN Hfit [Hlen Hbytes] Hi.
  assert (E : subscript_index N index = Z.min index (N - 1)).
  { unfold subscript_index. rewrite to_size_small by (unfold is_size; lia).
    reflexivity. }
  assert (Hin : (Z.to_nat (Z.min index (N - 1)) < length x)%nat) by lia.
  split; [exact E|]. split; [lia|].
  split; [apply rd_lookup, Hin|].
  split.
  - unfold subscript. rewrite E. apply rd_lookup, Hin.
  - intros v t Ht. unfold subscript_assign. rewrite E. apply rd_wr; lia.
Qed.

Lemma subscript_clamps_witness :
  subscript 4 [4; 3; 2; 1] 2 = Some 2 /\
  subscript 4 [4; 3; 2; 1] 4 = Some 1 /\
  subscript 4 [4; 3; 2; 1] 1000 = Some 1.
Proof.
  split; [|split].
  - apply (subscript_clamps 4 [4; 3; 2; 1] 2); [lia | reflexivity | valid_tac | lia].
  - apply (subscript_clamps 4 [4; 3; 2; 1] 4); [lia | reflexivity | valid_tac | lia].
  - apply (subscript_clamps 4 [4; 3; 2; 1] 1000);
      [lia | reflexivity | valid_tac | lia].
Defined.

(** ** Conversion from and to integers *)

Lemma length_le_bytes (n : nat) : forall v, length (le_bytes n v) = n.
Proof. induction n as [|n IH]; intros v; simpl; [reflexivity|]. rewrite IH. reflexivity. Qed.

Lemma le_value_le_bytes (n : nat) :
  forall v, le_value (le_bytes n v) = v mod 256 ^ Z.of_nat n.
Proof.
  induction n as [|n IH]; intros v.
  - simpl. rewrite Z.mod_1_r. reflexivity.
  - cbn [le_bytes le_value]. rewrite IH, Nat2Z.inj_succ, Z.pow_succ_r by lia.
    rewrite Z.rem_mul_r by lia. reflexivity.
Qed.

Lemma memcpy_all (dst src : bytes) (n : Z) :
  length src = Z.to_nat n -> length dst = Z.to_nat n -> memcpy dst src n = src.
Proof.
  intros Hs Hd. unfold memcpy.
  rewrite take_ge, drop_ge by lia. apply app_nil_r.
Qed.

(** The value of type [I] that has the low-order bits of [v]. *)
Lemma object_value_repr (I : int_type) (v : Z) :
  0 < int_size I -> representable I v ->
  object_value I (object_repr I v) = v.
Proof.
  intros Hsz Hv. unfold object_value, object_repr.
  rewrite le_value_le_bytes, Z2Nat.id by lia.
  change 256 with (2 ^ 8). rewrite <- Z.pow_mul_r by lia.
  fold (int_bits I).
  assert (Hb : 0 < int_bits I) by (unfold int_bits; lia).
  assert (Hpow : 2 ^ int_bits I = 2 * 2 ^ (int_bits I - 1)).
  { rewrite <- Z.pow_succ_r by lia. f_equal. lia. }
  assert (Hhalf : 0 < 2 ^ (int_bits I - 1)) by (apply Z.pow_pos_nonneg; lia).
  unfold representable in Hv.
  destruct (int_signed I); simpl.
  - destruct (Z.lt_ge_cases v 0) as [Hneg|Hpos].
    + replace (v mod 2 ^ int_bits I) with (v + 2 ^ int_bits I)
        by (apply (Z.mod_unique _ _ (-1)); lia).
      replace (2 ^ (int_bits I - 1) <=? v + 2 ^ int_bits I) with true
        by (symmetry; apply Z.leb_le; lia).
      lia.
    + rewrite Z.mod_small by lia.
      replace (2 ^ (int_bits I - 1) <=? v) with false
        by (symmetry; apply Z.leb_gt; lia).
      reflexivity.
  - apply Z.mod_small. lia.
Qed.

(** C3: when [N] is the size of the integral type [I], converting a value
    [v] of type [I] to a container and back with [to_int<I>] returns [v]. *)
Theorem int_roundtrip (N : Z) (I : int_type) (v : Z) :
  0 < N -> N = int_size I -> representable I v ->
  to_int N I (from_int N I v) = v.
Proof.
  intros HN HI Hv. unfold to_int, from_int. rewrite <- HI, Z.min_id.
  assert (Hl : forall w, length (object_repr I w) = Z.to_nat N)
    by (intros w; unfold object_repr; rewrite length_le_bytes; congruence).
  rewrite (memcpy_all (zero N)) by (rewrite ?length_zero; auto).
  rewrite memcpy_all by auto.
  apply object_value_repr; [lia|exact Hv].
Qed.

Lemma int_roundtrip_witness :
  to_int 4 int32_t (from_int 4 int32_t (-5)) = -5 /\
  to_int 2 uint16_t (from_int 2 uint16_t 0xBEEF) = 0xBEEF.
Proof.
  split.
  - apply (int_roundtrip 4 int32_t (-5)); [lia | reflexivity | cbv; split; [discriminate | reflexivity]].
  - apply (int_roundtrip 2 uint16_t 0xBEEF);
      [lia | reflexivity | cbv; split; [discriminate | reflexivity]].
Defined.

(** ** The scenario of the specification *)

(** C5: with [N = 4], the container made from the 32-bit integer
    [0x01020304] is [[0x04; 0x03; 0x02; 0x01]]; shifted left by 8 it is
    [[0x00; 0x04; 0x03; 0x02]], shifted right by 8 it is
    [[0x03; 0x02; 0x01; 0x00]], rotated left by 8 it is
    [[0x01; 0x04; 0x03; 0x02]]; the population count of [[0x0F; 0; 0; 0]] is
    4 and [print_hex] writes "0x01020304" for [[0x04; 0x03; 0x02; 0x01]]. *)
Theorem scenario_four_bytes :
  from_int 4 uint32_t 0x01020304 = [0x04; 0x03; 0x02; 0x01] /\
  shl 4 [0x04; 0x03; 0x02; 0x01] 8 = [0x00; 0x04; 0x03; 0x02] /\
  shr 4 [0x04; 0x03; 0x02; 0x01] 8 = [0x03; 0x02; 0x01; 0x00] /\
  rotate_left 4 [0x04; 0x03; 0x02; 0x01] 8 = [0x01; 0x04; 0x03; 0x02] /\
  popcount 4 [0x0F; 0; 0; 0] = 4 /\
  print_hex 4 "" [0x04; 0x03; 0x02; 0x01] = "0x01020304"%string.
Proof. repeat split; vm_compute; reflexivity. Qed.

(** ** Ordering *)

Section Comparison.

Variables x y : bytes.

(** The comparison loop answers [c0], one of [Lt] and [Gt], when it has
    already found it or when the first pair of cells that differ, from [a]
    on, compares as [c0]. *)
Lemma spaceship_loop (c0 : comparison) (n : nat) :
  c0 <> Eq ->
  forall a c,
    for_up a n (fun i c => match c with Eq => rd x i ?= rd y i | _ => c end) c
    = c0 <->
    c = c0 \/
    (c = Eq /\
     exists k, a <= k < a + Z.of_nat n /\
               (forall i, a <= i < k -> rd x i = rd y i) /\
               (rd x k ?= rd y k) = c0).
Proof.
  intros Hc0. induction n as [|n IH]; intros a c; simpl for_up.
  - split; [tauto|]. intros [H|[_ [k [Hk _]]]]; [exact H|lia].
  - rewrite IH. clear IH. split.
    + intros [H|[Hc [k [Hk [Heq Hcmp]]]]].
      * destruct c; auto. right. split; [reflexivity|].
        exists a. split; [lia|]. split; [intros; lia|exact H].
      * destruct c; try discriminate. right. split; [reflexivity|].
        exists k. split; [lia|]. split; [|exact Hcmp].
        intros i Hi. destruct (Z.eq_dec i a) as [->|Hne].
        -- apply Z.compare_eq, Hc.
        -- apply Heq. lia.
    + intros [H|[-> [k [Hk [Heq Hcmp]]]]].
      * left. subst c. destruct c0; congruence.
      * destruct (Z.eq_dec k a) as [->|Hne]; [left; exact Hcmp|].
        right. split.
        -- rewrite (Heq a) by lia. apply Z.compare_refl.
        -- exists k. split; [lia|]. split; [|exact Hcmp].
           intros i Hi. apply Heq. lia.
Qed.

End Comparison.

(** C10: the ordering is lexicographic from byte 0, the least significant
    byte of the little-endian convention: [x <=> y] is "less" exactly when
    the first pair of bytes that differ, from index 0, has the smaller byte
    in [x] (and "greater" when it has the greater one).  It is not the order
    of the integers that the containers denote: for [N = 2],
    [[0x00; 0x01]] is less than [[0x01; 0x00]] while its [to_int<uint16_t>],
    256, is greater than 1. *)
Theorem spaceship_lexicographic_from_byte_0 :
  (forall (N : Z) (x y : bytes),
     0 < N ->
     (spaceship N x y = Lt <->
      exists k, 0 <= k < N /\ (forall i, 0 <= i < k -> rd x i = rd y i) /\
                rd x k < rd y k) /\
     (spaceship N x y = Gt <->
      exists k, 0 <= k < N /\ (forall i, 0 <= i < k -> rd x i = rd y i) /\
                rd y k < rd x k)) /\
  (valid 2 [0x00; 0x01] /\ valid 2 [0x01; 0x00] /\
   spaceship 2 [0x00; 0x01] [0x01; 0x00] = Lt /\
   to_int 2 uint16_t [0x00; 0x01] = 256 /\
   to_int 2 uint16_t [0x01; 0x00] = 1) /\
  (exists x y : bytes,
     valid 2 x /\ valid 2 y /\ spaceship 2 x y = Lt /\
     to_int 2 uint16_t x > to_int 2 uint16_t y).
Proof.
  split; [|split].
  - intros N x y HN. unfold spaceship. split.
    + rewrite (spaceship_loop x y Lt) by discriminate. split.
      * intros [H|[_ [k [Hk [Heq Hcmp]]]]]; [discriminate|].
        apply Z.compare_lt_iff in Hcmp. exists k.
        split; [lia|]. split; [|exact Hcmp]. intros i Hi. apply Heq. lia.
      * intros [k [Hk [Heq Hcmp]]]. right. split; [reflexivity|].
        apply Z.compare_lt_iff in Hcmp. exists k.
        split; [lia|]. split; [|exact Hcmp]. intros i Hi. apply Heq. lia.
    + rewrite (spaceship_loop x y Gt) by discriminate. split.
      * intros [H|[_ [k [Hk [Heq Hcmp]]]]]; [discriminate|].
        apply Z.compare_gt_iff in Hcmp. exists k.
        split; [lia|]. split; [|exact Hcmp]. intros i Hi. apply Heq. lia.
      * intros [k [Hk [Heq Hcmp]]]. right. split; [reflexivity|].
        apply Z.compare_gt_iff in Hcmp. exists k.
        split; [lia|]. split; [|exact Hcmp]. intros i Hi. apply Heq. lia.
  - split; [valid_tac|]. split; [valid_tac|]. repeat split.
  - exists [0x00; 0x01], [0x01; 0x00].
    split; [valid_tac|]. split; [valid_tac|]. split; reflexivity.
Qed.

Lemma spaceship_lexicographic_from_byte_0_witness :
  spaceship 3 [7; 7; 9] [7; 8; 1] = Lt <->
  exists k, 0 <= k < 3 /\
            (forall i, 0 <= i < k -> rd [7; 7; 9] i = rd [7; 8; 1] i) /\
            rd [7; 7; 9] k < rd [7; 8; 1] k.
Proof.
  apply (proj1 spaceship_lexicographic_from_byte_0 3 [7; 7; 9] [7; 8; 1]). lia.
Defined.

(** ** Textual rendering *)

Lemma append_nil_r (s : string) : s +:+ "" = s.
Proof.
  induction s as [|c s IH]; [reflexivity|].
  change (String c s +:+ "") with (String c (s +:+ "")). rewrite IH. reflexivity.
Qed.

Lemma append_assoc (s1 s2 s3 : string) : (s1 +:+ s2) +:+ s3 = s1 +:+ (s2 +:+ s3).
Proof.
  induction s1 as [|c s1 IH]; [reflexivity|].
  change (String c (s1 +:+ s2) +:+ s3 = String c (s1 +:+ (s2 +:+ s3))).
  rewrite <- IH. reflexivity.
Qed.

Lemma binary_digit (d j : Z) :
  0 <= j ->
  (if Z.land (Z.shiftr d j) 1 =? 0 then "0"%char else "1"%char) =
  (if Z.testbit d j then "1"%char else "0"%char).
Proof.
  intros Hj. change 1 with (Z.ones 1) at 1.
  rewrite Z.land_ones by lia. change (2 ^ 1) with 2.
  rewrite <- Z.bit0_mod, Z.shiftr_spec, Z.add_0_l by lia.
  destruct (Z.testbit d j); reflexivity.
Qed.

Lemma print_byte_binary (os : ostream) (d : Z) :
  for_down 8
    (fun j os =>
       put os (if Z.land (Z.shiftr d j) 1 =? 0 then "0"%char else "1"%char)) os
  = os +:+ bin8 d.
Proof.
  cbn [for_down]. unfold put. rewrite !binary_digit by lia.
  rewrite !append_assoc. reflexivity.
Qed.

Lemma concat_cons (sep s : string) (l : list string) :
  String.concat sep (s :: l) =
  s +:+ (if decide (l = []) then "" else sep +:+ String.concat sep l).
Proof.
  destruct l as [|s' l]; simpl; [symmetry; apply append_nil_r|reflexivity].
Qed.

Lemma print_binary_loop (N : Z) (b : bytes) (n : nat) :
  N < 2 ^ SIZE_BITS -> length b = Z.to_nat N ->
  forall i os,
    0 <= i -> i + Z.of_nat n = N ->
    for_up i n
      (fun i os =>
         let os :=
           for_down 8
             (fun j os =>
                put os (if Z.land (Z.shiftr (rd b i) j) 1 =? 0
                        then "0"%char else "1"%char)) os in
         if i =? to_size (N - 1) then os else put os " "%char)
      os
    = os +:+ String.concat " " (map bin8 (drop (Z.to_nat i) b)).
Proof.
  intros Hfit Hlen. induction n as [|n IH]; intros i os Hi Hn; cbn [for_up].
  - rewrite drop_ge by lia. simpl. symmetry. apply append_nil_r.
  - rewrite IH by lia. clear IH. cbv beta zeta.
    rewrite (drop_S b (rd b i) (Z.to_nat i)) by (apply rd_lookup; lia).
    replace (Z.to_nat (i + 1)) with (S (Z.to_nat i)) by lia.
    rewrite print_byte_binary, to_size_small by (unfold is_size; lia).
    cbn [map]. rewrite concat_cons.
    destruct (Z.eqb_spec i (N - 1)) as [Hlast|Hlast].
    + rewrite drop_ge by lia. simpl. rewrite !append_nil_r. reflexivity.
    + destruct (decide (map bin8 (drop (S (Z.to_nat i)) b) = [])) as [E|E].
      * apply (f_equal (@length string)) in E.
        rewrite length_map, length_drop in E. simpl in E. lia.
      * unfold put. rewrite !append_assoc. reflexivity.
Qed.

Lemma put_hex_byte (os : ostream) (b : Z) :
  is_byte b -> put_hex os 2 "0"%char b = os +:+ hex2 b.
Proof.
  intros Hb. unfold put_hex, hex2, is_byte in *. f_equal.
  cbn [hex_digits].
  assert (H16 : 0 <= b / 16 < 16)
    by (split; [apply Z.div_pos|apply Z.div_lt_upper_bound]; lia).
  destruct (Z.eqb_spec (b / 16) 0) as [E|E].
  - rewrite E. reflexivity.
  - replace (b / 16 / 16) with 0 by (symmetry; apply Z.div_small; lia).
    rewrite (Z.mod_small (b / 16)) by lia. reflexivity.
Qed.

Lemma print_hex_loop (x : bytes) (n : nat) :
  Forall is_byte x -> (n <= length x)%nat ->
  forall os,
    for_down n (fun i os => put_hex os 2 "0"%char (rd x i)) os
    = os +:+ String.concat "" (map hex2 (rev (take n x))).
Proof.
  intros Hb. induction n as [|n IH]; intros Hn os; simpl for_down.
  - rewrite take_0. simpl. symmetry. apply append_nil_r.
  - rewrite IH by lia. clear IH.
    rewrite (take_S_r x n (rd x (Z.of_nat n)))
      by (rewrite <- (Nat2Z.id n) at 1; apply rd_lookup; lia).
    rewrite rev_app_distr. cbn [rev app map]. rewrite concat_cons.
    rewrite put_hex_byte by (apply rd_is_byte, Hb).
    rewrite append_assoc. do 2 f_equal.
    destruct (decide (map hex2 (rev (take n x)) = [])) as [E|E];
      [rewrite E|]; reflexivity.
Qed.

(** C4, as the code has it: [operator<<] writes the [N] bytes in index
    order, byte 0 first and byte [N - 1] last, each one as 8 binary digits
    with bit 7 first, with one space between two bytes; [print_hex] writes
    "0x" and then the bytes from index [N - 1] down to index 0, each one as
    two lowercase hexadecimal digits, padded with a zero. *)
Theorem rendering (N : Z) (x : bytes) (os : ostream) :
  0 < N -> N < 2 ^ SIZE_BITS -> valid N x ->
  print_binary N os x = os +:+ binary_low_to_high x /\
  print_hex N os x = os +:+ hex_high_to_low x.
Proof.
  intros HN Hfit [Hlen Hb]. split.
  - unfold print_binary, binary_low_to_high.
    rewrite (print_binary_loop N x) by (auto; lia). reflexivity.
  - unfold print_hex, hex_high_to_low.
    rewrite print_hex_loop by (auto; lia).
    rewrite take_ge by lia. apply append_assoc.
Qed.

Lemma rendering_witness :
  print_binary 2 "" [0x04; 0xA3] = "00000100 10100011"%string /\
  print_hex 2 "" [0x04; 0xA3] = "0xa304"%string.
Proof.
  apply (rendering 2 [0x04; 0xA3] ""); [lia | reflexivity | valid_tac].
Defined.

(** The binary rendering is not in high-to-low byte order: for [N = 2] the
    container [[0x01; 0x00]] is written with its byte 0 first. *)
Lemma binary_rendering_not_high_to_low :
  valid 2 [0x01; 0x00] /\
  print_binary 2 "" [0x01; 0x00] = "00000001 00000000"%string /\
  binary_high_to_low [0x01; 0x00] = "00000000 00000001"%string /\
  print_binary 2 "" [0x01; 0x00] <> binary_high_to_low [0x01; 0x00].
Proof.
  split; [valid_tac|]. split; [reflexivity|]. split; [reflexivity|].
  discriminate.
Qed.

(** * Further properties of the container *)

(** A loop that stores [g i] into cell [i], for [i] from 0. *)
Lemma for_up_store (g : Z -> Z) (n : nat) (r : bytes) (t : Z) :
  (n <= length r)%nat -> 0 <= t ->
  rd (for_up 0 n (fun i res => wr res i (g i)) r) t =
  if t <? Z.of_nat n then g t else rd r t.
Proof.
  intros Hn Ht.
  rewrite (for_up_ext _ (fun i res => wr res (i + 0) (g i)))
    by (intros i s' _; f_equal; lia).
  rewrite for_up_fill by lia.
  replace (t - 0) with t by lia. zcases.
Qed.

Lemma valid_for_up_store (N : Z) (g : Z -> Z) (n : nat) (r : bytes) :
  (forall i, is_byte (g i)) -> valid N r ->
  valid N (for_up 0 n (fun i res => wr res i (g i)) r).
Proof.
  intros Hg Hr. apply for_up_inv; [|exact Hr].
  intros i s' Hs'. apply valid_wr; [exact Hs'|apply Hg].
Qed.

Lemma le_value_bit (x : bytes) :
  Forall is_byte x -> forall j, 0 <= j -> Z.testbit (le_value x) j = bit x j.
Proof.
  induction x as [|b l IH]; intros Hx j Hj.
  - unfold bit. simpl. rewrite rd_outside by (simpl; lia).
    rewrite !Z.testbit_0_l. reflexivity.
  - apply Forall_cons in Hx. destruct Hx as [Hb Hl]. cbn [le_value].
    pose proof (Z.div_mod j 8 ltac:(lia)) as Ej.
    pose proof (Z.mod_pos_bound j 8 ltac:(lia)) as Hm.
    assert (Hq : 0 <= j / 8) by (apply Z.div_pos; lia).
    destruct (Z.lt_ge_cases j 8) as [Hlt|Hge].
    + rewrite <- (Z.mod_pow2_bits_low _ 8) by lia.
      replace ((b + 256 * le_value l) mod 2 ^ 8) with b
        by (apply (Z.mod_unique _ _ (le_value l)); unfold is_byte in Hb; lia).
      unfold bit. rewrite Z.div_small, Z.mod_small by lia. reflexivity.
    + replace j with (j - 8 + 8) at 1 by lia.
      rewrite <- Z.div_pow2_bits by lia.
      replace ((b + 256 * le_value l) / 2 ^ 8) with (le_value l)
        by (apply (Z.div_unique _ _ _ b); unfold is_byte in Hb; lia).
      rewrite IH by (auto; lia). unfold bit.
      replace ((j - 8) mod 8) with (j mod 8)
        by (apply (Z.mod_unique _ _ (j / 8 - 1)); lia).
      replace ((j - 8) / 8) with (j / 8 - 1)
        by (apply (Z.div_unique _ _ _ (j mod 8)); lia).
      f_equal. unfold rd.
      replace (Z.to_nat (j / 8)) with (S (Z.to_nat (j / 8 - 1))) by lia.
      reflexivity.
Qed.

Section MoreShifts.

Variable N : Z.
Hypothesis N_pos : 0 < N.
Hypothesis N_fits : N * 8 < 2 ^ SIZE_BITS.

Lemma bit_outside (x : bytes) (j : Z) :
  valid N x -> N * 8 <= j -> bit x j = false.
Proof.
  intros [Hlen _] Hj. unfold bit. rewrite rd_outside; [apply Z.testbit_0_l|].
  assert (N <= j / 8) by (apply Z.div_le_lower_bound; lia). lia.
Qed.

(** Bit [j] of [x << shift_bits], for every count. *)
Lemma shl_bit_any (x : bytes) (shift_bits j : Z) :
  valid N x -> 0 <= shift_bits -> 0 <= j < N * 8 ->
  bit (shl N x shift_bits) j =
  if shift_bits <=? j then bit x (j - shift_bits) else false.
Proof.
  intros Hv Hs Hj.
  destruct (Z.eq_dec shift_bits 0) as [->|Hs0].
  - rewrite shl_0, Z.sub_0_r. zcases.
  - destruct (Z.lt_ge_cases shift_bits (N * 8)) as [Hlt|Hge].
    + apply shl_bit; auto; lia.
    + rewrite shl_saturates, bit_zero by assumption. zcases.
Qed.

(** Bit [j] of [x >> shift_bits], for every count. *)
Lemma shr_bit_any (x : bytes) (shift_bits j : Z) :
  valid N x -> 0 <= shift_bits -> 0 <= j < N * 8 ->
  bit (shr N x shift_bits) j =
  if j + shift_bits <? N * 8 then bit x (j + shift_bits) else false.
Proof.
  intros Hv Hs Hj.
  destruct (Z.eq_dec shift_bits 0) as [->|Hs0].
  - rewrite shr_0, Z.add_0_r. zcases.
  - destruct (Z.lt_ge_cases shift_bits (N * 8)) as [Hlt|Hge].
    + apply shr_bit; auto; lia.
    + rewrite shr_saturates, bit_zero by assumption. zcases.
Qed.



Lemma shl_shr_bit (x : bytes) (s j : Z) :
  valid N x -> 0 <= s -> 0 <= j < N * 8 ->
  bit (shr N (shl N x s) s) j = (if j + s <? N * 8 then bit x j else false) /\
  bit (shl N (shr N x s) s) j = (if s <=? j then bit x j else false).
Proof.
  intros Hv Hs Hj.
  rewrite (shr_bit_any (shl N x s) s j), (shl_bit_any (shr N x s) s j)
    by (auto using valid_shl, valid_shr; lia).
  split.
  - destruct (Z.ltb_spec (j + s) (N * 8)); [|reflexivity].
    rewrite shl_bit_any by (auto; lia).
    replace (j + s - s) with j by lia. zcases.
  - destruct (Z.leb_spec s j); [|reflexivity].
    rewrite shr_bit_any by (auto; lia).
    replace (j - s + s) with j by lia. zcases.
Qed.

Lemma le_value_shl (x : bytes) (s : Z) :
  valid N x -> 0 <= s ->
  le_value (shl N x s) = (le_value x * 2 ^ s) mod 2 ^ (N * 8).
Proof.
  intros Hv Hs. pose proof (valid_shl N x s Hv) as Hv'.
  apply Z.bits_inj'. intros j Hj.
  rewrite le_value_bit by (auto; apply Hv').
  destruct (Z.lt_ge_cases j (N * 8)) as [Hlt|Hge].
  - rewrite Z.mod_pow2_bits_low, <- Z.shiftl_mul_pow2, Z.shiftl_spec by lia.
    rewrite shl_bit_any by (auto; lia).
    destruct (Z.leb_spec s j).
    + rewrite le_value_bit by (try lia; apply Hv). reflexivity.
    + symmetry. apply Z.testbit_neg_r. lia.
  - rewrite Z.mod_pow2_bits_high by lia. apply bit_outside; assumption.
Qed.

Lemma le_value_shr (x : bytes) (s : Z) :
  valid N x -> 0 <= s ->
  le_value (shr N x s) = le_value x / 2 ^ s.
Proof.
  intros Hv Hs. pose proof (valid_shr N x s Hv) as Hv'.
  apply Z.bits_inj'. intros j Hj.
  rewrite le_value_bit by (auto; apply Hv').
  rewrite Z.div_pow2_bits, le_value_bit by (try lia; apply Hv).
  destruct (Z.lt_ge_cases j (N * 8)) as [Hlt|Hge].
  - rewrite shr_bit_any by (auto; lia).
    destruct (Z.ltb_spec (j + s) (N * 8)); [reflexivity|].
    symmetry. apply bit_outside; [assumption|lia].
  - rewrite !bit_outside by (auto; lia). reflexivity.
Qed.

Lemma to_int_unsigned (I : int_type) (x : bytes) :
  valid N x -> int_size I = N -> int_signed I = false ->
  to_int N I x = le_value x.
Proof.
  intros [Hlen _] HI Hu. unfold to_int. rewrite HI, Z.min_id.
  rewrite memcpy_all
    by (auto; unfold object_repr; rewrite length_le_bytes; congruence).
  unfold object_value. rewrite Hu. reflexivity.
Qed.

End MoreShifts.



(** A shift to the left followed by the same shift to the right gives [x]
    with its [s] highest bits cleared; a shift to the right followed by the
    same shift to the left gives [x] with its [s] lowest bits cleared. *)
Theorem shift_there_and_back (N : Z) (x : bytes) (s j : Z) :
  0 < N -> N * 8 < 2 ^ SIZE_BITS -> valid N x -> 0 <= s -> 0 <= j < N * 8 ->
  bit (shr N (shl N x s) s) j = (if j + s <? N * 8 then bit x j else false) /\
  bit (shl N (shr N x s) s) j = (if s <=? j then bit x j else false).
Proof. intros HN Hfit Hv Hs Hj. apply shl_shr_bit; assumption. Qed.

Lemma shift_there_and_back_witness :
  bit (shr 2 (shl 2 [255; 255] 5) 5) 11 = false /\
  bit (shl 2 (shr 2 [255; 255] 5) 5) 11 = bit [255; 255] 11.
Proof.
  apply (shift_there_and_back 2 [255; 255] 5 11);
    [lia | reflexivity | valid_tac | lia | lia].
Defined.

(** Under the little-endian conversion to an unsigned integer of [N] bytes,
    [<<] is the multiplication by a power of two modulo [2 ^ (N * 8)] and
    [>>] is the division by a power of two. *)
Theorem shift_is_integer_shift (N : Z) (I : int_type) (x : bytes) (s : Z) :
  0 < N -> N * 8 < 2 ^ SIZE_BITS -> valid N x ->
  int_size I = N -> int_signed I = false -> 0 <= s ->
  to_int N I (shl N x s) = (to_int N I x * 2 ^ s) mod 2 ^ (N * 8) /\
  to_int N I (shr N x s) = to_int N I x / 2 ^ s.
Proof.
  intros HN Hfit Hv HI Hu Hs.
  rewrite !(to_int_unsigned N I) by auto using valid_shl, valid_shr.
  split; [apply le_value_shl|apply le_value_shr]; assumption.
Qed.

Lemma shift_is_integer_shift_witness :
  to_int 4 uint32_t (shl 4 [4; 3; 2; 1] 9) =
    (to_int 4 uint32_t [4; 3; 2; 1] * 2 ^ 9) mod 2 ^ (4 * 8) /\
  to_int 4 uint32_t (shr 4 [4; 3; 2; 1] 9) =
    to_int 4 uint32_t [4; 3; 2; 1] / 2 ^ 9.
Proof.
  apply (shift_is_integer_shift 4 uint32_t [4; 3; 2; 1] 9);
    [lia | reflexivity | valid_tac | reflexivity | reflexivity | lia].
Defined.

(** ** Rotations by any count *)

Section MoreRotations.

Variable N : Z.
Hypothesis N_pos : 0 < N.
Hypothesis N_fits : N * 8 < 2 ^ SIZE_BITS.

Lemma rotate_left_mod (x : bytes) (n : Z) :
  rotate_left N x n = rotate_left N x (n mod (N * 8)).
Proof.
  unfold rotate_left. rewrite size_bits by assumption.
  rewrite Z.mod_mod by lia. reflexivity.
Qed.

Lemma rotate_right_mod (x : bytes) (n : Z) :
  rotate_right N x n = rotate_right N x (n mod (N * 8)).
Proof.
  unfold rotate_right. rewrite size_bits by assumption.
  rewrite Z.mod_mod by lia. reflexivity.
Qed.

Lemma valid_rotate_left (x : bytes) (n : Z) : valid N (rotate_left N x n).
Proof. unfold rotate_left. apply valid_bor. Qed.

Lemma valid_rotate_right (x : bytes) (n : Z) : valid N (rotate_right N x n).
Proof. unfold rotate_right. apply valid_bor. Qed.

Lemma rotate_left_bit_any (x : bytes) (n j : Z) :
  valid N x -> 0 <= j < N * 8 ->
  bit (rotate_left N x n) j = bit x ((j - n) mod (N * 8)).
Proof.
  intros Hv Hj. rewrite rotate_left_mod.
  rewrite rotate_left_bit by (auto; apply Z.mod_pos_bound; lia).
  rewrite Zminus_mod_idemp_r. reflexivity.
Qed.

Lemma rotate_right_bit_any (x : bytes) (n j : Z) :
  valid N x -> 0 <= j < N * 8 ->
  bit (rotate_right N x n) j = bit x ((j + n) mod (N * 8)).
Proof.
  intros Hv Hj. rewrite rotate_right_mod.
  rewrite rotate_right_bit by (auto; apply Z.mod_pos_bound; lia).
  rewrite Zplus_mod_idemp_r. reflexivity.
Qed.

Lemma rotate_left_multiple (x : bytes) (k : Z) :
  valid N x -> rotate_left N x (k * (N * 8)) = x.
Proof.
  intros Hv. apply (bit_ext N); auto using valid_rotate_left.
  intros j Hj. rewrite rotate_left_bit_any by assumption.
  f_equal. symmetry. apply (Z.mod_unique _ _ (- k)); lia.
Qed.

Lemma rotate_right_multiple (x : bytes) (k : Z) :
  valid N x -> rotate_right N x (k * (N * 8)) = x.
Proof.
  intros Hv. apply (bit_ext N); auto using valid_rotate_right.
  intros j Hj. rewrite rotate_right_bit_any by assumption.
  f_equal. symmetry. apply (Z.mod_unique _ _ k); lia.
Qed.



Lemma rotate_right_left_any (x : bytes) (n : Z) :
  valid N x ->
  rotate_left N (rotate_right N x n) n = x /\
  rotate_right N (rotate_left N x n) n = x.
Proof.
  intros Hv. split.
  - apply (bit_ext N); auto using valid_rotate_left.
    intros j Hj.
    rewrite rotate_left_bit_any by auto using valid_rotate_right.
    rewrite rotate_right_bit_any by (auto; apply Z.mod_pos_bound; lia).
    rewrite Zplus_mod_idemp_l. replace (j - n + n) with j by lia.
    rewrite Z.mod_small by lia. reflexivity.
  - apply (bit_ext N); auto using valid_rotate_right.
    intros j Hj.
    rewrite rotate_right_bit_any by auto using valid_rotate_left.
    rewrite rotate_left_bit_any by (auto; apply Z.mod_pos_bound; lia).
    rewrite Zminus_mod_idemp_l. replace (j + n - n) with j by lia.
    rewrite Z.mod_small by lia. reflexivity.
Qed.

Lemma rotate_right_as_left (x : bytes) (n : Z) :
  valid N x ->
  rotate_right N x n = rotate_left N x (N * 8 - n mod (N * 8)).
Proof.
  intros Hv. apply (bit_ext N); auto using valid_rotate_left, valid_rotate_right.
  intros j Hj. rewrite rotate_right_bit_any, rotate_left_bit_any by assumption.
  f_equal.
  replace (j - (N * 8 - n mod (N * 8))) with (j + n mod (N * 8) + -1 * (N * 8))
    by lia.
  rewrite Z.mod_add by lia. symmetry. apply Zplus_mod_idemp_r.
Qed.

End MoreRotations.

(** A rotation depends on its count modulo [N * 8] only: a rotation by
    [N * 8], or by any multiple of it, returns the container. *)
Theorem rotate_periodic (N : Z) (x : bytes) (n k : Z) :
  0 < N -> N * 8 < 2 ^ SIZE_BITS -> valid N x ->
  rotate_left N x n = rotate_left N x (n mod (N * 8)) /\
  rotate_right N x n = rotate_right N x (n mod (N * 8)) /\
  rotate_left N x (N * 8) = x /\ rotate_right N x (N * 8) = x /\
  rotate_left N x (k * (N * 8)) = x /\ rotate_right N x (k * (N * 8)) = x.
Proof.
  intros HN Hfit Hv.
  split; [apply rotate_left_mod; assumption|].
  split; [apply rotate_right_mod; assumption|].
  split; [rewrite <- (Z.mul_1_l (N * 8)) at 1;
          apply rotate_left_multiple; assumption|].
  split; [rewrite <- (Z.mul_1_l (N * 8)) at 1;
          apply rotate_right_multiple; assumption|].
  split; [apply rotate_left_multiple|apply rotate_right_multiple]; assumption.
Qed.

Lemma rotate_periodic_witness :
  rotate_left 2 [5; 9] 35 = rotate_left 2 [5; 9] (35 mod (2 * 8)) /\
  rotate_left 2 [5; 9] (2 * 8) = [5; 9].
Proof.
  pose proof (rotate_periodic 2 [5; 9] 35 3
                ltac:(lia) ltac:(reflexivity) ltac:(valid_tac)) as H.
  split; apply H.
Defined.



(** The two rotations are inverse of each other, in both orders and for
    every count, and a rotation to the right by [n] is the rotation to the
    left by [N * 8 - n mod (N * 8)]. *)
Theorem rotate_inverse (N : Z) (x : bytes) (n : Z) :
  0 < N -> N * 8 < 2 ^ SIZE_BITS -> valid N x ->
  rotate_left N (rotate_right N x n) n = x /\
  rotate_right N (rotate_left N x n) n = x /\
  rotate_right N x n = rotate_left N x (N * 8 - n mod (N * 8)).
Proof.
  intros HN Hfit Hv.
  destruct (rotate_right_left_any N HN Hfit x n Hv) as [H1 H2].
  split; [exact H1|]. split; [exact H2|].
  apply rotate_right_as_left; assumption.
Qed.

Lemma rotate_inverse_witness :
  rotate_left 2 (rotate_right 2 [5; 9] 100) 100 = [5; 9] /\
  rotate_right 2 (rotate_left 2 [5; 9] 100) 100 = [5; 9] /\
  rotate_right 2 [5; 9] 100 = rotate_left 2 [5; 9] (2 * 8 - 100 mod (2 * 8)).
Proof.
  apply (rotate_inverse 2 [5; 9] 100); [lia | reflexivity | valid_tac].
Defined.

(** ** Byte-wise operators *)

Section Bitwise.

Variable N : Z.
Hypothesis N_pos : 0 < N.
Hypothesis N_fits : N * 8 < 2 ^ SIZE_BITS.

Lemma bxor_bytes (x y : bytes) (t : Z) :
  0 <= t < N -> rd (bxor N x y) t = to_byte (Z.lxor (rd x t) (rd y t)).
Proof.
  intros Ht. unfold bxor.
  rewrite (for_up_store (fun i => to_byte (Z.lxor (rd x i) (rd y i))))
    by (rewrite ?length_zero; lia).
  zcases.
Qed.

Lemma bnot_bytes (x : bytes) (t : Z) :
  0 <= t < N -> rd (bnot N x) t = to_byte (Z.lnot (rd x t)).
Proof.
  intros Ht. unfold bnot.
  rewrite (for_up_store (fun i => to_byte (Z.lnot (rd x i))))
    by (rewrite ?length_zero; lia).
  zcases.
Qed.

Lemma valid_bxor (x y : bytes) : valid N (bxor N x y).
Proof.
  unfold bxor.
  apply (valid_for_up_store N (fun i => to_byte (Z.lxor (rd x i) (rd y i)))).
  - intros i. apply to_byte_is_byte.
  - apply valid_zero.
Qed.

Lemma valid_bnot (x : bytes) : valid N (bnot N x).
Proof.
  unfold bnot.
  apply (valid_for_up_store N (fun i => to_byte (Z.lnot (rd x i)))).
  - intros i. apply to_byte_is_byte.
  - apply valid_zero.
Qed.

Lemma bxor_bit (x y : bytes) (j : Z) :
  0 <= j < N * 8 -> bit (bxor N x y) j = xorb (bit x j) (bit y j).
Proof.
  intros Hj. destruct (index_of_bit N j Hj) as [Hq Hm]. unfold bit.
  rewrite bxor_bytes, testbit_to_byte, Z.lxor_spec by lia. reflexivity.
Qed.

Lemma bnot_bit (x : bytes) (j : Z) :
  0 <= j < N * 8 -> bit (bnot N x) j = negb (bit x j).
Proof.
  intros Hj. destruct (index_of_bit N j Hj) as [Hq Hm]. unfold bit.
  rewrite bnot_bytes, testbit_to_byte, Z.lnot_spec by lia. reflexivity.
Qed.

End Bitwise.

(** Rewrites the bits of the results of the byte-wise operators. *)
Ltac bitwise N :=
  repeat first
    [ rewrite (bor_bit N) by assumption
    | rewrite (band_bit N) by assumption
    | rewrite (bxor_bit N) by assumption
    | rewrite (bnot_bit N) by assumption
    | rewrite (bit_zero N) ].

(** The four operators work bit by bit, on containers of [N] bytes: bit [j]
    of the result is the OR, AND, XOR or negation of the bits [j] of the
    operands. *)
Theorem bitwise_operators (N : Z) (x y : bytes) (j : Z) :
  0 < N -> N * 8 < 2 ^ SIZE_BITS -> 0 <= j < N * 8 ->
  (valid N (bor N x y) /\ bit (bor N x y) j = bit x j || bit y j) /\
  (valid N (band N x y) /\ bit (band N x y) j = bit x j && bit y j) /\
  (valid N (bxor N x y) /\ bit (bxor N x y) j = xorb (bit x j) (bit y j)) /\
  (valid N (bnot N x) /\ bit (bnot N x) j = negb (bit x j)).
Proof.
  intros HN Hfit Hj. bitwise N.
  pose proof (valid_bor N x y). pose proof (valid_band N x y).
  pose proof (valid_bxor N x y). pose proof (valid_bnot N x).
  tauto.
Qed.

Lemma bitwise_operators_witness :
  bit (bxor 2 [5; 9] [12; 10]) 9 = xorb (bit [5; 9] 9) (bit [12; 10] 9) /\
  bit (bnot 2 [5; 9]) 9 = negb (bit [5; 9] 9).
Proof.
  pose proof (bitwise_operators 2 [5; 9] [12; 10] 9
                ltac:(lia) ltac:(reflexivity) ltac:(lia)) as H.
  split; apply H.
Defined.

(** [~(~x) == x], [x & x == x], [x | x == x] and [x ^ x] is the all-zero
    container. *)
Theorem bitwise_idempotence (N : Z) (x : bytes) :
  0 < N -> N * 8 < 2 ^ SIZE_BITS -> valid N x ->
  bnot N (bnot N x) = x /\ band N x x = x /\ bor N x x = x /\
  bxor N x x = zero N.
Proof.
  intros HN Hfit Hv. repeat split.
  - apply (bit_ext N); auto using valid_bnot. intros j Hj. bitwise N.
    apply Bool.negb_involutive.
  - apply (bit_ext N); auto using valid_band. intros j Hj. bitwise N.
    apply Bool.andb_diag.
  - apply (bit_ext N); auto using valid_bor. intros j Hj. bitwise N.
    apply Bool.orb_diag.
  - apply (bit_ext N); auto using valid_bxor, valid_zero. intros j Hj.
    bitwise N. apply Bool.xorb_nilpotent.
Qed.

Lemma bitwise_idempotence_witness :
  bnot 2 (bnot 2 [5; 9]) = [5; 9] /\ band 2 [5; 9] [5; 9] = [5; 9] /\
  bor 2 [5; 9] [5; 9] = [5; 9] /\ bxor 2 [5; 9] [5; 9] = zero 2.
Proof.
  apply (bitwise_idempotence 2 [5; 9]); [lia | reflexivity | valid_tac].
Defined.

(** De Morgan's laws hold for [~], [&] and [|], the operators [|], [&]
    and [^] are commutative, and [^] undoes itself:
    [(x ^ y) ^ y == x]. *)
Theorem bitwise_laws (N : Z) (x y : bytes) :
  0 < N -> N * 8 < 2 ^ SIZE_BITS -> valid N x ->
  bnot N (band N x y) = bor N (bnot N x) (bnot N y) /\
  bnot N (bor N x y) = band N (bnot N x) (bnot N y) /\
  bor N x y = bor N y x /\ band N x y = band N y x /\
  bxor N x y = bxor N y x /\
  bxor N (bxor N x y) y = x.
Proof.
  intros HN Hfit Hv. repeat split.
  - apply (bit_ext N); auto using valid_bnot, valid_bor. intros j Hj.
    bitwise N. apply Bool.negb_andb.
  - apply (bit_ext N); auto using valid_bnot, valid_band. intros j Hj.
    bitwise N. apply Bool.negb_orb.
  - apply (bit_ext N); auto using valid_bor. intros j Hj.
    bitwise N. apply Bool.orb_comm.
  - apply (bit_ext N); auto using valid_band. intros j Hj.
    bitwise N. apply Bool.andb_comm.
  - apply (bit_ext N); auto using valid_bxor. intros j Hj.
    bitwise N. apply Bool.xorb_comm.
  - apply (bit_ext N); auto using valid_bxor. intros j Hj.
    bitwise N. rewrite Bool.xorb_assoc, Bool.xorb_nilpotent.
    apply Bool.xorb_false_r.
Qed.

Lemma bitwise_laws_witness :
  bnot 2 (band 2 [5; 9] [12; 10]) = bor 2 (bnot 2 [5; 9]) (bnot 2 [12; 10]) /\
  bxor 2 (bxor 2 [5; 9] [12; 10]) [12; 10] = [5; 9].
Proof.
  pose proof (bitwise_laws 2 [5; 9] [12; 10]
                ltac:(lia) ltac:(reflexivity) ltac:(valid_tac)) as H.
  split; apply H.
Defined.

(** ** Conversions between containers and integers of any size *)

Lemma rd_cons_succ (b : Z) (l : bytes) (t : Z) :
  0 < t -> rd (b :: l) t = rd l (t - 1).
Proof.
  intros Ht. unfold rd.
  replace (Z.to_nat t) with (S (Z.to_nat (t - 1))) by lia. reflexivity.
Qed.

Lemma rd_le_bytes (n : nat) :
  forall v t, 0 <= t ->
    rd (le_bytes n v) t = if t <? Z.of_nat n then (v / 256 ^ t) mod 256 else 0.
Proof.
  induction n as [|n IH]; intros v t Ht.
  - rewrite rd_outside by (simpl; lia). zcases.
  - cbn [le_bytes]. destruct (Z.eq_dec t 0) as [->|Hne].
    + replace (0 <? Z.of_nat (S n)) with true by (symmetry; apply Z.ltb_lt; lia).
      rewrite Z.pow_0_r, Z.div_1_r. reflexivity.
    + rewrite rd_cons_succ, IH by lia.
      replace (t - 1 <? Z.of_nat n) with (t <? Z.of_nat (S n)) by zcases.
      destruct (t <? Z.of_nat (S n)); [|reflexivity].
      rewrite Z.div_div by (try apply Z.pow_pos_nonneg; lia).
      replace (256 * 256 ^ (t - 1)) with (256 ^ t); [reflexivity|].
      replace t with (Z.succ (t - 1)) at 1 by lia.
      apply Z.pow_succ_r. lia.
Qed.

Lemma le_bytes_is_byte (n : nat) : forall v, Forall is_byte (le_bytes n v).
Proof.
  induction n as [|n IH]; intros v; cbn [le_bytes]; constructor.
  - apply to_byte_is_byte.
  - apply IH.
Qed.

Lemma rd_memcpy (dst src : bytes) (n t : Z) :
  0 <= t -> 0 <= n -> (Z.to_nat n <= length src)%nat ->
  rd (memcpy dst src n) t = if t <? n then rd src t else rd dst t.
Proof.
  intros Ht Hn Hlen. unfold memcpy, rd.
  destruct (Z.ltb_spec t n) as [Hlt|Hge].
  - rewrite lookup_app_l by (rewrite length_take; lia).
    rewrite lookup_take_lt by lia. reflexivity.
  - rewrite lookup_app_r by (rewrite length_take; lia).
    rewrite lookup_drop, length_take. do 2 f_equal. lia.
Qed.

Lemma testbit_byte_of (v q m : Z) :
  0 <= q -> 0 <= m < 8 ->
  Z.testbit ((v / 256 ^ q) mod 256) m = Z.testbit v (8 * q + m).
Proof.
  intros Hq Hm. change 256 with (2 ^ 8).
  rewrite Z.mod_pow2_bits_low, <- Z.pow_mul_r, Z.div_pow2_bits by lia.
  f_equal. lia.
Qed.

Lemma le_value_bound (x : bytes) :
  Forall is_byte x -> 0 <= le_value x < 256 ^ Z.of_nat (length x).
Proof.
  induction 1 as [|b l Hb Hl IH]; [simpl; lia|].
  cbn [le_value length]. rewrite Nat2Z.inj_succ, Z.pow_succ_r by lia.
  unfold is_byte in Hb. lia.
Qed.

Section Conversions.

Variable N : Z.
Hypothesis N_pos : 0 < N.
Variable I : int_type.
Hypothesis I_pos : 0 < int_size I.

Lemma length_object_repr (v : Z) : length (object_repr I v) = Z.to_nat (int_size I).
Proof. unfold object_repr. apply length_le_bytes. Qed.

Lemma valid_from_int (v : Z) : valid N (from_int N I v).
Proof.
  unfold from_int, memcpy. split.
  - rewrite length_app, length_take, length_drop, length_object_repr, length_zero.
    lia.
  - apply Forall_app. split.
    + apply Forall_take, le_bytes_is_byte.
    + apply Forall_drop, valid_zero.
Qed.

Lemma from_int_bytes (v t : Z) :
  0 <= t ->
  rd (from_int N I v) t =
  if t <? Z.min N (int_size I) then (v / 256 ^ t) mod 256 else 0.
Proof.
  intros Ht. unfold from_int.
  rewrite rd_memcpy by (rewrite ?length_object_repr; lia).
  unfold object_repr. rewrite rd_le_bytes, rd_zero by lia. zcases.
Qed.

Lemma le_value_low_bits (x : bytes) (v c : Z) :
  Forall is_byte x -> 0 <= c ->
  (forall q m, 0 <= q -> 0 <= m < 8 ->
     Z.testbit (rd x q) m = if q <? c then Z.testbit v (8 * q + m) else false) ->
  le_value x = v mod 2 ^ (8 * c).
Proof.
  intros Hx Hc H. apply Z.bits_inj'. intros j Hj.
  rewrite le_value_bit by assumption. unfold bit.
  pose proof (Z.div_mod j 8 ltac:(lia)) as Ej.
  pose proof (Z.mod_pos_bound j 8 ltac:(lia)) as Hm.
  assert (Hq : 0 <= j / 8) by (apply Z.div_pos; lia).
  rewrite H by lia. rewrite <- Ej.
  destruct (Z.ltb_spec (j / 8) c).
  - rewrite Z.mod_pow2_bits_low by lia. reflexivity.
  - rewrite Z.mod_pow2_bits_high by lia. reflexivity.
Qed.

Lemma le_value_from_int (v : Z) :
  le_value (from_int N I v) = v mod 2 ^ (8 * Z.min N (int_size I)).
Proof.
  apply le_value_low_bits; [apply valid_from_int|lia|].
  intros q m Hq Hm. rewrite from_int_bytes by lia.
  destruct (q <? Z.min N (int_size I)); [|apply Z.testbit_0_l].
  apply testbit_byte_of; lia.
Qed.

Lemma to_int_object (x : bytes) :
  valid N x ->
  le_value (memcpy (object_repr I 0) x (Z.min N (int_size I))) =
  le_value x mod 2 ^ (8 * Z.min N (int_size I)).
Proof.
  intros [Hlen Hb]. apply le_value_low_bits; [|lia|].
  - unfold memcpy. apply Forall_app. split.
    + apply Forall_take, Hb.
    + apply Forall_drop, le_bytes_is_byte.
  - intros q m Hq Hm. rewrite rd_memcpy by lia.
    destruct (q <? Z.min N (int_size I)).
    + rewrite le_value_bit by (auto; lia). symmetry. apply bit_at. lia.
    + unfold object_repr. rewrite rd_le_bytes by lia.
      rewrite Z.div_0_l by (apply Z.pow_nonzero; lia).
      destruct (q <? _); apply Z.testbit_0_l.
Qed.

Lemma to_int_unsigned_any (x : bytes) :
  valid N x -> int_signed I = false ->
  to_int N I x = le_value x mod 2 ^ (8 * Z.min N (int_size I)).
Proof.
  intros Hv Hu. unfold to_int, object_value. rewrite Hu. simpl.
  apply to_int_object, Hv.
Qed.

Lemma le_value_inj (x y : bytes) :
  valid N x -> valid N y -> le_value x = le_value y -> x = y.
Proof.
  intros Hx Hy E. apply rd_ext; [destruct Hx, Hy; congruence|].
  intros i Hi. apply Z.bits_inj'. intros m Hm.
  destruct (Z.lt_ge_cases m 8).
  - rewrite <- !(bit_at _ i m), <- !le_value_bit
      by (try lia; try apply Hx; apply Hy).
    rewrite E. reflexivity.
  - rewrite !testbit_byte_high
      by (try lia; apply rd_is_byte; try apply Hx; apply Hy).
    reflexivity.
Qed.

Lemma from_int_to_int (x : bytes) :
  valid N x -> int_size I = N -> from_int N I (to_int N I x) = x.
Proof.
  intros Hv HI. apply le_value_inj; [apply valid_from_int|exact Hv|].
  rewrite le_value_from_int. unfold to_int, object_value.
  pose proof (to_int_object x Hv) as E. rewrite E.
  rewrite HI, Z.min_id in *.
  destruct Hv as [Hlen Hb]. pose proof (le_value_bound x Hb) as Hbound.
  rewrite Hlen, Z2Nat.id in Hbound by lia.
  change 256 with (2 ^ 8) in Hbound. rewrite <- Z.pow_mul_r in Hbound by lia.
  unfold int_bits. rewrite HI.
  rewrite (Z.mod_small (le_value x)) by lia.
  destruct (int_signed I && (2 ^ (8 * N - 1) <=? le_value x)).
  - symmetry. apply (Z.mod_unique _ _ (-1)); lia.
  - apply Z.mod_small. lia.
Qed.

Lemma to_int_from_int_wide (v : Z) :
  int_size I <= N -> representable I v -> to_int N I (from_int N I v) = v.
Proof.
  intros Hle Hv. unfold to_int, from_int.
  rewrite Z.min_r by lia. unfold memcpy.
  rewrite (take_ge (object_repr I v)) by (rewrite length_object_repr; lia).
  rewrite take_app_length' by (rewrite length_object_repr; lia).
  rewrite drop_ge by (rewrite length_object_repr; lia).
  rewrite app_nil_r. apply object_value_repr; assumption.
Qed.

End Conversions.

(** The constructor from an integer copies the low-order
    [min (N, sizeof (I))] bytes of the value, least significant first: byte
    [t] of the container is byte [t] of the integer below that count and 0
    from there on, so that a wider integer loses its high-order bytes and a
    narrower one is extended with zeros. *)
Theorem from_int_bytes_of_value (N : Z) (I : int_type) (v t : Z) :
  0 < N -> 0 < int_size I -> 0 <= t < N ->
  valid N (from_int N I v) /\
  rd (from_int N I v) t =
    if t <? Z.min N (int_size I) then (v / 256 ^ t) mod 256 else 0.
Proof.
  intros HN HI Ht. split.
  - apply valid_from_int; assumption.
  - apply from_int_bytes; first [assumption | lia].
Qed.

Lemma from_int_bytes_of_value_witness :
  rd (from_int 2 uint32_t 0x01020304) 1 = 3 /\
  rd (from_int 4 uint16_t 0x0304) 2 = 0.
Proof.
  split.
  - exact (proj2 (from_int_bytes_of_value 2 uint32_t 0x01020304 1
                    ltac:(lia) ltac:(reflexivity) ltac:(lia))).
  - exact (proj2 (from_int_bytes_of_value 4 uint16_t 0x0304 2
                    ltac:(lia) ltac:(reflexivity) ltac:(lia))).
Defined.

(** Converting a value to a container and back returns the value whenever
    the container is at least as large as the integer type, signed or not;
    for an unsigned type and any sizes it returns the value modulo
    [2 ^ (8 * min (N, sizeof (I)))]; and [to_int] of an unsigned type reads
    the little-endian value of the container modulo that power. *)
Theorem to_int_from_int_any_size (N : Z) (I : int_type) (v : Z) (x : bytes) :
  0 < N -> 0 < int_size I -> valid N x ->
  (int_size I <= N -> representable I v ->
   to_int N I (from_int N I v) = v) /\
  (int_signed I = false ->
   to_int N I (from_int N I v) = v mod 2 ^ (8 * Z.min N (int_size I)) /\
   to_int N I x = le_value x mod 2 ^ (8 * Z.min N (int_size I))).
Proof.
  intros HN HI Hx. split.
  - intros Hle Hv. apply to_int_from_int_wide; assumption.
  - intros Hu.
    rewrite !to_int_unsigned_any by (auto using valid_from_int).
    rewrite le_value_from_int by assumption.
    split; [|reflexivity].
    apply Z.mod_mod, Z.pow_nonzero; lia.
Qed.

Lemma to_int_from_int_any_size_witness :
  to_int 4 int16_t (from_int 4 int16_t (-2)) = -2 /\
  to_int 2 uint32_t (from_int 2 uint32_t 0x01020304) =
    0x01020304 mod 2 ^ (8 * Z.min 2 (int_size uint32_t)).
Proof.
  split.
  - apply (proj1 (to_int_from_int_any_size 4 int16_t (-2) [0; 0; 0; 0]
                    ltac:(lia) ltac:(reflexivity) ltac:(valid_tac))).
    + cbv. discriminate.
    + cbv. split; [discriminate | reflexivity].
  - apply (proj2 (to_int_from_int_any_size 2 uint32_t 0x01020304 [0; 0]
                    ltac:(lia) ltac:(reflexivity) ltac:(valid_tac))).
    reflexivity.
Defined.

(** When [N] is the size of the integral type, reading a container as an
    integer and making a container from that integer gives the container
    back. *)
Theorem from_int_of_to_int (N : Z) (I : int_type) (x : bytes) :
  0 < N -> valid N x -> int_size I = N ->
  from_int N I (to_int N I x) = x.
Proof.
  intros HN Hx HI. apply from_int_to_int; first [assumption | lia].
Qed.

Lemma from_int_of_to_int_witness :
  from_int 2 int16_t (to_int 2 int16_t [0x34; 0xF2]) = [0x34; 0xF2].
Proof.
  apply (from_int_of_to_int 2 int16_t [0x34; 0xF2]);
    [lia | valid_tac | reflexivity].
Defined.

(** ** Single bits, continued *)

Section MoreBits.

Variable N : Z.
Hypothesis N_pos : 0 < N.
Hypothesis N_fits : N * 8 < 2 ^ SIZE_BITS.

Lemma bit_wr_at (x : bytes) (p v : Z) :
  valid N x -> 0 <= p < N * 8 ->
  bit (wr x (p / 8) v) p = Z.testbit v (p mod 8).
Proof.
  intros [Hlen _] Hp. destruct (index_of_bit N p Hp) as [Hq Hm].
  unfold bit. rewrite rd_wr, Z.eqb_refl by lia. reflexivity.
Qed.

Lemma set_bit_at (x : bytes) (p : Z) :
  valid N x -> 0 <= p < N * 8 -> bit (set_bit N x p) p = true.
Proof.
  intros Hv Hp. destruct (index_of_bit N p Hp) as [Hq Hm].
  unfold set_bit. rewrite size_bits by assumption.
  replace (p <? N * 8) with true by (symmetry; apply Z.ltb_lt; lia).
  rewrite bit_wr_at, testbit_to_byte, Z.lor_spec, testbit_one_shifted by (auto; lia).
  rewrite Z.eqb_refl. apply Bool.orb_true_r.
Qed.

Lemma clear_bit_at (x : bytes) (p : Z) :
  valid N x -> 0 <= p < N * 8 -> bit (clear_bit N x p) p = false.
Proof.
  intros Hv Hp. destruct (index_of_bit N p Hp) as [Hq Hm].
  unfold clear_bit. rewrite size_bits by assumption.
  replace (p <? N * 8) with true by (symmetry; apply Z.ltb_lt; lia).
  rewrite bit_wr_at, testbit_to_byte, Z.land_spec, Z.lnot_spec,
    testbit_one_shifted by (auto; lia).
  rewrite Z.eqb_refl. apply Bool.andb_false_r.
Qed.

Lemma toggle_bit_at (x : bytes) (p : Z) :
  valid N x -> 0 <= p < N * 8 -> bit (toggle_bit N x p) p = negb (bit x p).
Proof.
  intros Hv Hp. destruct (index_of_bit N p Hp) as [Hq Hm].
  unfold toggle_bit. rewrite size_bits by assumption.
  replace (p <? N * 8) with true by (symmetry; apply Z.ltb_lt; lia).
  rewrite bit_wr_at, testbit_to_byte, Z.lxor_spec, testbit_one_shifted by (auto; lia).
  rewrite Z.eqb_refl. unfold bit. apply Bool.xorb_true_r.
Qed.

Lemma toggle_toggle (x : bytes) (p : Z) :
  valid N x -> 0 <= p < N * 8 -> toggle_bit N (toggle_bit N x p) p = x.
Proof.
  intros Hv Hp. pose proof (valid_toggle_bit N x p Hv) as Hv'.
  apply (bit_ext N); auto using valid_toggle_bit.
  intros j Hj. destruct (Z.eq_dec j p) as [->|Hne].
  - rewrite !toggle_bit_at by assumption. apply Bool.negb_involutive.
  - rewrite !toggle_bit_frame by assumption. reflexivity.
Qed.

(** The container that holds the integer 1, shifted to position [p]. *)
Lemma bit_one_shifted (p j : Z) :
  0 <= p < N * 8 -> 0 <= j < N * 8 ->
  bit (shl N (from_int N uint8_t 1) p) j = (j =? p).
Proof.
  intros Hp Hj.
  rewrite shl_bit_any by (auto; try lia; apply valid_from_int; simpl; lia).
  destruct (Z.leb_spec p j) as [Hle|Hgt]; [|symmetry; apply Z.eqb_neq; lia].
  assert (Hd : 0 <= j - p < N * 8) by lia.
  destruct (index_of_bit N (j - p) Hd) as [Hq Hm].
  unfold bit. rewrite from_int_bytes by (simpl; lia).
  change (int_size uint8_t) with 1.
  destruct (Z.ltb_spec ((j - p) / 8) (Z.min N 1)) as [Hlt|Hge].
  - assert (Hz : (j - p) / 8 = 0) by lia.
    pose proof (Z.div_mod (j - p) 8 ltac:(lia)) as E.
    rewrite Hz, Z.pow_0_r, Z.div_1_r. change (1 mod 256) with (Z.shiftl 1 0).
    rewrite testbit_one_shifted by lia.
    destruct (Z.eqb_spec 0 ((j - p) mod 8)); zcases.
  - rewrite Z.testbit_0_l. symmetry. apply Z.eqb_neq.
    intros ->. replace (p - p) with 0 in Hge by lia.
    rewrite Z.div_0_l in Hge; lia.
Qed.

Lemma set_bit_as_or (x : bytes) (p : Z) :
  valid N x -> 0 <= p < N * 8 ->
  set_bit N x p = bor N x (shl N (from_int N uint8_t 1) p).
Proof.
  intros Hv Hp. apply (bit_ext N); auto using valid_set_bit, valid_bor.
  intros j Hj. rewrite bor_bit, bit_one_shifted by assumption.
  destruct (Z.eqb_spec j p) as [->|Hne].
  - rewrite set_bit_at by assumption. symmetry. apply Bool.orb_true_r.
  - rewrite set_bit_frame by assumption. symmetry. apply Bool.orb_false_r.
Qed.

Lemma clear_bit_as_and (x : bytes) (p : Z) :
  valid N x -> 0 <= p < N * 8 ->
  clear_bit N x p = band N x (bnot N (shl N (from_int N uint8_t 1) p)).
Proof.
  intros Hv Hp. apply (bit_ext N); auto using valid_clear_bit, valid_band.
  intros j Hj. rewrite band_bit, bnot_bit, bit_one_shifted by assumption.
  destruct (Z.eqb_spec j p) as [->|Hne].
  - rewrite clear_bit_at by assumption. symmetry. apply Bool.andb_false_r.
  - rewrite clear_bit_frame by assumption. symmetry. apply Bool.andb_true_r.
Qed.

Lemma toggle_bit_as_xor (x : bytes) (p : Z) :
  valid N x -> 0 <= p < N * 8 ->
  toggle_bit N x p = bxor N x (shl N (from_int N uint8_t 1) p).
Proof.
  intros Hv Hp. apply (bit_ext N); auto using valid_toggle_bit, valid_bxor.
  intros j Hj. rewrite bxor_bit, bit_one_shifted by assumption.
  destruct (Z.eqb_spec j p) as [->|Hne].
  - rewrite toggle_bit_at by assumption. symmetry. apply Bool.xorb_true_r.
  - rewrite toggle_bit_frame by assumption. symmetry. apply Bool.xorb_false_r.
Qed.

End MoreBits.

(** For a position [p] inside of the container: after [set_bit (p)],
    [test_bit (p)] is true; after [clear_bit (p)] it is false;
    [toggle_bit (p)] negates it, and applied twice it gives the container
    back. *)
Theorem bit_accessors_agree (N : Z) (x : bytes) (p : Z) :
  0 < N -> N * 8 < 2 ^ SIZE_BITS -> valid N x -> 0 <= p < N * 8 ->
  test_bit N (set_bit N x p) p = true /\
  test_bit N (clear_bit N x p) p = false /\
  test_bit N (toggle_bit N x p) p = negb (test_bit N x p) /\
  toggle_bit N (toggle_bit N x p) p = x.
Proof.
  intros HN Hfit Hv Hp. rewrite !test_bit_bit by assumption.
  rewrite set_bit_at, clear_bit_at, toggle_bit_at, toggle_toggle by assumption.
  repeat split.
Qed.

Lemma bit_accessors_agree_witness :
  test_bit 2 (set_bit 2 [5; 9] 12) 12 = true /\
  test_bit 2 (clear_bit 2 [5; 9] 11) 11 = false /\
  test_bit 2 (toggle_bit 2 [5; 9] 11) 11 = negb (test_bit 2 [5; 9] 11) /\
  toggle_bit 2 (toggle_bit 2 [5; 9] 11) 11 = [5; 9].
Proof.
  pose proof (bit_accessors_agree 2 [5; 9] 12
                ltac:(lia) ltac:(reflexivity) ltac:(valid_tac) ltac:(lia)) as H12.
  pose proof (bit_accessors_agree 2 [5; 9] 11
                ltac:(lia) ltac:(reflexivity) ltac:(valid_tac) ltac:(lia)) as H11.
  split; [apply H12|apply H11].
Defined.

(** The single-bit mutators are the byte-wise operators applied to a mask:
    with [one] the container made from the integer 1, [set_bit (p)] is
    [x | (one << p)], [clear_bit (p)] is [x & ~(one << p)] and
    [toggle_bit (p)] is [x ^ (one << p)]. *)
Theorem bit_mutators_as_masks (N : Z) (x : bytes) (p : Z) :
  0 < N -> N * 8 < 2 ^ SIZE_BITS -> valid N x -> 0 <= p < N * 8 ->
  set_bit N x p = bor N x (shl N (from_int N uint8_t 1) p) /\
  clear_bit N x p = band N x (bnot N (shl N (from_int N uint8_t 1) p)) /\
  toggle_bit N x p = bxor N x (shl N (from_int N uint8_t 1) p).
Proof.
  intros HN Hfit Hv Hp.
  split; [apply set_bit_as_or; assumption|].
  split; [apply clear_bit_as_and|apply toggle_bit_as_xor]; assumption.
Qed.

Lemma bit_mutators_as_masks_witness :
  set_bit 2 [5; 9] 12 = bor 2 [5; 9] (shl 2 (from_int 2 uint8_t 1) 12) /\
  clear_bit 2 [5; 9] 12 =
    band 2 [5; 9] (bnot 2 (shl 2 (from_int 2 uint8_t 1) 12)) /\
  toggle_bit 2 [5; 9] 12 = bxor 2 [5; 9] (shl 2 (from_int 2 uint8_t 1) 12).
Proof.
  apply (bit_mutators_as_masks 2 [5; 9] 12);
    [lia | reflexivity | valid_tac | lia].
Defined.

(** ** Population count *)

Lemma std_popcount_bits (d : Z) :
  std_popcount d =
  Z.b2z (Z.testbit d 0) + Z.b2z (Z.testbit d 1) + Z.b2z (Z.testbit d 2) +
  Z.b2z (Z.testbit d 3) + Z.b2z (Z.testbit d 4) + Z.b2z (Z.testbit d 5) +
  Z.b2z (Z.testbit d 6) + Z.b2z (Z.testbit d 7).
Proof. unfold std_popcount. cbn [for_up]. simpl. reflexivity. Qed.

Lemma std_popcount_range (d : Z) : 0 <= std_popcount d <= 8.
Proof.
  rewrite std_popcount_bits.
  destruct (Z.testbit d 0), (Z.testbit d 1), (Z.testbit d 2), (Z.testbit d 3),
    (Z.testbit d 4), (Z.testbit d 5), (Z.testbit d 6), (Z.testbit d 7);
    simpl; lia.
Qed.

Lemma std_popcount_complement (d : Z) :
  std_popcount (to_byte (Z.lnot d)) = 8 - std_popcount d.
Proof.
  rewrite !std_popcount_bits.
  rewrite !testbit_to_byte, !Z.lnot_spec by lia.
  destruct (Z.testbit d 0), (Z.testbit d 1), (Z.testbit d 2), (Z.testbit d 3),
    (Z.testbit d 4), (Z.testbit d 5), (Z.testbit d 6), (Z.testbit d 7);
    reflexivity.
Qed.

Lemma std_popcount_zero (d : Z) : is_byte d -> std_popcount d = 0 -> d = 0.
Proof.
  intros Hd H. rewrite std_popcount_bits in H.
  apply Z.bits_inj'. intros m Hm. rewrite Z.testbit_0_l.
  destruct (Z.lt_ge_cases m 8) as [Hlt|Hge];
    [|apply testbit_byte_high; assumption].
  assert (Hcases : m = 0 \/ m = 1 \/ m = 2 \/ m = 3 \/ m = 4 \/ m = 5 \/
                   m = 6 \/ m = 7) by lia.
  destruct (Z.testbit d 0) eqn:E0, (Z.testbit d 1) eqn:E1,
    (Z.testbit d 2) eqn:E2, (Z.testbit d 3) eqn:E3, (Z.testbit d 4) eqn:E4,
    (Z.testbit d 5) eqn:E5, (Z.testbit d 6) eqn:E6, (Z.testbit d 7) eqn:E7;
    simpl in H; try lia.
  intuition (subst m; assumption).
Qed.

Section Sums.

Variable g : Z -> Z.
Hypothesis g_range : forall i, 0 <= g i <= 8.

Lemma sum_loop_range (n : nat) :
  forall a c, c <= for_up a n (fun i c => c + g i) c <= c + 8 * Z.of_nat n.
Proof.
  induction n as [|n IH]; intros a c; cbn [for_up]; [lia|].
  specialize (IH (a + 1) (c + g a)). specialize (g_range a). lia.
Qed.

Lemma sum_loop_nowrap (n : nat) :
  forall a c,
    0 <= c -> c + 8 * Z.of_nat n < 2 ^ SIZE_BITS ->
    for_up a n (fun i c => to_size (c + g i)) c =
    for_up a n (fun i c => c + g i) c.
Proof.
  induction n as [|n IH]; intros a c Hc Hn; cbn [for_up]; [reflexivity|].
  pose proof (g_range a).
  rewrite to_size_small by (unfold is_size; lia).
  apply IH; lia.
Qed.

Lemma sum_loop_zero (n : nat) :
  forall a c,
    for_up a n (fun i c => c + g i) c = c <->
    forall i, a <= i < a + Z.of_nat n -> g i = 0.
Proof.
  induction n as [|n IH]; intros a c; cbn [for_up].
  - split; [intros; lia|reflexivity].
  - pose proof (sum_loop_range n (a + 1) (c + g a)) as Hr.
    pose proof (g_range a) as Ha. split.
    + intros E i Hi. assert (Hga : g a = 0) by lia.
      destruct (Z.eq_dec i a) as [->|Hne]; [exact Hga|].
      apply (proj1 (IH (a + 1) (c + g a))); [lia|lia].
    + intros H0. rewrite (H0 a) by lia. rewrite Z.add_0_r.
      apply IH. intros i Hi. apply H0. lia.
Qed.

End Sums.

Lemma sum_loop_complement (g g' : Z -> Z) (n : nat) :
  forall a c c',
    (forall i, a <= i < a + Z.of_nat n -> g i + g' i = 8) ->
    for_up a n (fun i c => c + g i) c + for_up a n (fun i c => c + g' i) c' =
    c + c' + 8 * Z.of_nat n.
Proof.
  induction n as [|n IH]; intros a c c' H; cbn [for_up]; [lia|].
  rewrite IH by (intros i Hi; apply H; lia).
  specialize (H a ltac:(lia)). lia.
Qed.

(** A loop in chunks: [n + m] iterations are [n] iterations followed by
    [m] more. *)
Lemma for_up_add {S : Type} (f : Z -> S -> S) (n m : nat) :
  forall a s,
    for_up a (n + m) f s = for_up (a + Z.of_nat n) m f (for_up a n f s).
Proof.
  induction n as [|n IH]; intros a s.
  - cbn [Nat.add for_up]. replace (a + Z.of_nat 0) with a by lia. reflexivity.
  - cbn [for_up Nat.add]. rewrite IH. f_equal. lia.
Qed.

Section Popcount.

Variable N : Z.
Hypothesis N_pos : 0 < N.
Hypothesis N_fits : N * 8 < 2 ^ SIZE_BITS.

Lemma popcount_sum (x : bytes) :
  popcount N x =
  for_up 0 (Z.to_nat N) (fun i c => c + std_popcount (rd x i)) 0.
Proof.
  unfold popcount.
  apply (sum_loop_nowrap (fun i => std_popcount (rd x i))); [|lia|lia].
  intros i. apply std_popcount_range.
Qed.

Lemma popcount_range (x : bytes) : 0 <= popcount N x <= N * 8.
Proof.
  rewrite popcount_sum.
  pose proof (sum_loop_range (fun i => std_popcount (rd x i))
                (fun i => std_popcount_range _) (Z.to_nat N) 0 0).
  lia.
Qed.

Lemma popcount_complement (x : bytes) :
  popcount N (bnot N x) = N * 8 - popcount N x.
Proof.
  rewrite !popcount_sum.
  pose proof (sum_loop_complement
                (fun i => std_popcount (rd (bnot N x) i))
                (fun i => std_popcount (rd x i)) (Z.to_nat N) 0 0 0) as H.
  cbv beta in H.
  assert (Hc : forall i, 0 <= i < 0 + Z.of_nat (Z.to_nat N) ->
               std_popcount (rd (bnot N x) i) + std_popcount (rd x i) = 8).
  { intros i Hi. rewrite bnot_bytes by lia.
    rewrite std_popcount_complement. lia. }
  specialize (H Hc). lia.
Qed.

Lemma popcount_zero_iff (x : bytes) :
  valid N x -> (popcount N x = 0 <-> x = zero N).
Proof.
  intros Hv. rewrite popcount_sum.
  rewrite (sum_loop_zero (fun i => std_popcount (rd x i)))
    by (intros i; apply std_popcount_range).
  split.
  - intros H. apply rd_ext.
    + rewrite length_zero. apply Hv.
    + intros i Hi. rewrite rd_zero.
      apply std_popcount_zero; [apply rd_is_byte, Hv|].
      apply H. destruct Hv as [Hlen _]. lia.
  - intros -> i Hi. rewrite rd_zero. reflexivity.
Qed.

Lemma popcount_of_zero : popcount N (zero N) = 0.
Proof. apply popcount_zero_iff; [apply valid_zero|reflexivity]. Qed.

(** The bits of one byte, counted through [test_bit]. *)
Lemma count_byte (x : bytes) (i c : Z) :
  0 <= i < N ->
  for_up (8 * i) 8 (fun j c => c + Z.b2z (test_bit N x j)) c =
  c + std_popcount (rd x i).
Proof.
  intros Hi. cbn [for_up].
  rewrite !test_bit_bit by (auto; lia).
  rewrite std_popcount_bits.
  rewrite <- !(bit_at x i) by lia.
  replace (8 * i + 0) with (8 * i) by lia.
  replace (8 * i + 1 + 1) with (8 * i + 2) by lia.
  replace (8 * i + 2 + 1) with (8 * i + 3) by lia.
  replace (8 * i + 3 + 1) with (8 * i + 4) by lia.
  replace (8 * i + 4 + 1) with (8 * i + 5) by lia.
  replace (8 * i + 5 + 1) with (8 * i + 6) by lia.
  replace (8 * i + 6 + 1) with (8 * i + 7) by lia.
  lia.
Qed.

Lemma count_bytes (x : bytes) (n : nat) :
  forall i c,
    0 <= i -> i + Z.of_nat n <= N ->
    for_up i n (fun i c => c + std_popcount (rd x i)) c =
    for_up (8 * i) (8 * n) (fun j c => c + Z.b2z (test_bit N x j)) c.
Proof.
  induction n as [|n IH]; intros i c Hi Hn.
  - reflexivity.
  - replace (8 * S n)%nat with (8 + 8 * n)%nat by lia.
    rewrite for_up_add, count_byte by lia. cbn [for_up].
    rewrite IH by lia. f_equal. lia.
Qed.

Lemma popcount_counts (x : bytes) :
  popcount N x =
  for_up 0 (Z.to_nat (N * 8)) (fun j c => c + Z.b2z (test_bit N x j)) 0.
Proof.
  rewrite popcount_sum, count_bytes by lia.
  f_equal. lia.
Qed.

End Popcount.

(** [popcount] is the number of positions [j < N * 8] at which [test_bit]
    is true. *)
Theorem popcount_counts_set_bits (N : Z) (x : bytes) :
  0 < N -> N * 8 < 2 ^ SIZE_BITS ->
  popcount N x =
  for_up 0 (Z.to_nat (N * 8)) (fun j c => c + Z.b2z (test_bit N x j)) 0.
Proof. intros HN Hfit. apply popcount_counts; assumption. Qed.

Lemma popcount_counts_set_bits_witness :
  popcount 2 [5; 9] =
  for_up 0 (Z.to_nat (2 * 8)) (fun j c => c + Z.b2z (test_bit 2 [5; 9] j)) 0.
Proof. apply (popcount_counts_set_bits 2 [5; 9]); [lia | reflexivity]. Defined.

(** [0 <= popcount (x) <= N * 8]; the count of the all-zero container is 0
    and that of its complement is [N * 8]; the counts of a container and of
    its complement add up to [N * 8]. *)
Theorem popcount_bounds (N : Z) (x : bytes) :
  0 < N -> N * 8 < 2 ^ SIZE_BITS ->
  0 <= popcount N x <= N * 8 /\
  popcount N (zero N) = 0 /\
  popcount N (bnot N (zero N)) = N * 8 /\
  popcount N (bnot N x) = N * 8 - popcount N x.
Proof.
  intros HN Hfit.
  split; [apply popcount_range; assumption|].
  split; [apply popcount_of_zero; assumption|].
  rewrite !popcount_complement, popcount_of_zero by assumption.
  split; [lia|reflexivity].
Qed.

Lemma popcount_bounds_witness :
  0 <= popcount 2 [5; 9] <= 2 * 8 /\
  popcount 2 (zero 2) = 0 /\
  popcount 2 (bnot 2 (zero 2)) = 2 * 8 /\
  popcount 2 (bnot 2 [5; 9]) = 2 * 8 - popcount 2 [5; 9].
Proof. apply (popcount_bounds 2 [5; 9]); [lia | reflexivity]. Defined.

(** The count is 0 for the all-zero container and for no other one. *)
Theorem popcount_zero_only_for_zero (N : Z) (x : bytes) :
  0 < N -> N * 8 < 2 ^ SIZE_BITS -> valid N x ->
  (popcount N x = 0 <-> x = zero N).
Proof. intros HN Hfit Hv. apply popcount_zero_iff; assumption. Qed.

Lemma popcount_zero_only_for_zero_witness :
  popcount 2 [0; 0] = 0 <-> [0; 0] = zero 2.
Proof.
  apply (popcount_zero_only_for_zero 2 [0; 0]); [lia | reflexivity | valid_tac].
Defined.

(** ** Construction from raw bytes, [fill], [clear] and [reverse] *)

Section Modifiers.

Variable N : Z.
Hypothesis N_pos : 0 < N.

Lemma std_copy_bytes (src dst : bytes) (c t : Z) :
  (Z.to_nat c <= length dst)%nat -> 0 <= t ->
  rd (std_copy src c dst) t = if t <? c then rd src t else rd dst t.
Proof.
  intros Hc Ht. unfold std_copy.
  rewrite (for_up_store (fun i => rd src i)) by lia. zcases.
Qed.

Lemma valid_std_copy (src dst : bytes) (c : Z) :
  Forall is_byte src -> valid N dst -> valid N (std_copy src c dst).
Proof.
  intros Hs Hd. unfold std_copy.
  apply (valid_for_up_store N (fun i => rd src i)); [|exact Hd].
  intros i. apply rd_is_byte, Hs.
Qed.

Lemma from_ptr_bytes (data : bytes) (len t : Z) :
  0 <= t ->
  rd (from_ptr N data len) t = if t <? Z.min N len then rd data t else 0.
Proof.
  intros Ht. unfold from_ptr.
  rewrite std_copy_bytes, rd_zero by (rewrite ?length_zero; lia).
  reflexivity.
Qed.

Lemma length_from_ptr (data : bytes) (len : Z) :
  length (from_ptr N data len) = Z.to_nat N.
Proof.
  unfold from_ptr, std_copy.
  apply (for_up_inv (fun d => length d = Z.to_nat N)); [|apply length_zero].
  intros j s' Hs'. rewrite length_wr. exact Hs'.
Qed.

Lemma from_ptr_take (data : bytes) (len : Z) :
  N <= len -> (Z.to_nat N <= length data)%nat ->
  from_ptr N data len = take (Z.to_nat N) data.
Proof.
  intros Hlen Hdata. pose proof (length_from_ptr data len) as Hl.
  apply rd_ext.
  - rewrite length_take. lia.
  - intros i Hi. rewrite from_ptr_bytes by lia. rewrite Hl in Hi.
    replace (i <? Z.min N len) with true by (symmetry; apply Z.ltb_lt; lia).
    unfold rd. rewrite lookup_take_lt by lia. reflexivity.
Qed.

Lemma fill_replicate (x : bytes) (v : Z) :
  length x = Z.to_nat N -> fill N x v = replicate (Z.to_nat N) v.
Proof.
  intros Hlen.
  assert (Hl : length (fill N x v) = Z.to_nat N).
  { unfold fill, std_fill.
    apply (for_up_inv (fun d => length d = Z.to_nat N)); [|exact Hlen].
    intros j s' Hs'. rewrite length_wr. exact Hs'. }
  apply list_eq_same_length with (n := Z.to_nat N);
    [apply length_replicate|exact Hl|].
  intros i a b Hi Ha Hb. apply lookup_replicate in Hb. destruct Hb as [-> _].
  assert (E : rd (fill N x v) (Z.of_nat i) = v).
  { unfold fill, std_fill. rewrite (for_up_store (fun _ => v)) by lia. zcases. }
  unfold rd in E. rewrite Nat2Z.id, Ha in E. exact E.
Qed.

Hypothesis N_size : N < 2 ^ SIZE_BITS.

Lemma reverse_bytes (x : bytes) (t : Z) :
  0 <= t < N -> rd (reverse N x) t = rd x (N - 1 - t).
Proof.
  intros Ht. unfold reverse.
  rewrite (for_up_store (fun i => rd x (to_size (to_size (N - 1) - i))))
    by (rewrite ?length_zero; lia).
  replace (t <? Z.of_nat (Z.to_nat N)) with true by (symmetry; apply Z.ltb_lt; lia).
  rewrite (to_size_small (N - 1)) by (unfold is_size; lia).
  rewrite to_size_small by (unfold is_size; lia).
  reflexivity.
Qed.

Lemma valid_reverse (x : bytes) : valid N x -> valid N (reverse N x).
Proof.
  intros Hv. unfold reverse.
  apply (valid_for_up_store N (fun i => rd x (to_size (to_size (N - 1) - i))));
    [|apply valid_zero].
  intros i. apply rd_is_byte, Hv.
Qed.

Lemma reverse_reverse (x : bytes) : valid N x -> reverse N (reverse N x) = x.
Proof.
  intros Hv. pose proof (valid_reverse x Hv) as Hv'.
  pose proof (valid_reverse _ Hv') as Hv''.
  apply rd_ext; [destruct Hv, Hv''; congruence|].
  intros i Hi. destruct Hv'' as [Hl _].
  rewrite !reverse_bytes by lia. f_equal. lia.
Qed.

Lemma reverse_is_rev (x : bytes) : valid N x -> reverse N x = rev x.
Proof.
  intros Hv. pose proof (valid_reverse x Hv) as [Hl _]. destruct Hv as [Hlen _].
  apply rd_ext; [rewrite length_rev; congruence|].
  intros i Hi. rewrite reverse_bytes by lia.
  unfold rd. rewrite <- !nth_lookup, rev_nth by lia.
  f_equal. lia.
Qed.

End Modifiers.

(** The constructor from a pointer and a length copies the first
    [min (N, len)] bytes and leaves the other cells at zero: a short input
    is padded with zeros, a long one is cut at [N] bytes, an empty one gives
    the all-zero container; the constructor from an array of [N] bytes
    copies the array. *)
Theorem from_raw_bytes (N : Z) (data : bytes) (len t : Z) :
  0 < N -> Forall is_byte data -> 0 <= len <= Z.of_nat (length data) ->
  0 <= t < N ->
  valid N (from_ptr N data len) /\
  rd (from_ptr N data len) t = (if t <? Z.min N len then rd data t else 0) /\
  (N <= len -> from_ptr N data len = take (Z.to_nat N) data) /\
  (len = 0 -> from_ptr N data len = zero N) /\
  (valid N data -> from_array N data = data).
Proof.
  intros HN Hdata Hlen Ht.
  assert (Hv : valid N (from_ptr N data len))
    by (apply valid_std_copy; [exact Hdata|apply valid_zero]).
  split; [exact Hv|].
  split; [apply from_ptr_bytes; lia|].
  split; [intros H; apply from_ptr_take; lia|].
  split.
  - intros ->. apply rd_ext.
    + rewrite length_zero. apply Hv.
    + intros i Hi. rewrite from_ptr_bytes, rd_zero by lia.
      replace (i <? Z.min N 0) with false by (symmetry; apply Z.ltb_ge; lia).
      reflexivity.
  - intros [Hl Hb].
    replace (from_array N data) with (from_ptr N data N)
      by (unfold from_ptr, from_array; rewrite Z.min_id; reflexivity).
    rewrite from_ptr_take by lia. apply take_ge. lia.
Qed.

Lemma from_raw_bytes_witness :
  rd (from_ptr 4 [7; 8] 2) 1 = 8 /\ rd (from_ptr 4 [7; 8] 2) 3 = 0 /\
  rd (from_ptr 2 [7; 8; 9] 3) 1 = 8.
Proof.
  split; [|split].
  - exact (proj1 (proj2 (from_raw_bytes 4 [7; 8] 2 1 ltac:(lia)
             ltac:(repeat constructor; unfold is_byte; lia)
             ltac:(simpl; lia) ltac:(lia)))).
  - exact (proj1 (proj2 (from_raw_bytes 4 [7; 8] 2 3 ltac:(lia)
             ltac:(repeat constructor; unfold is_byte; lia)
             ltac:(simpl; lia) ltac:(lia)))).
  - exact (proj1 (proj2 (from_raw_bytes 2 [7; 8; 9] 3 1 ltac:(lia)
             ltac:(repeat constructor; unfold is_byte; lia)
             ltac:(simpl; lia) ltac:(lia)))).
Defined.

(** [fill (v)] makes every cell [v] and [clear ()] gives the all-zero
    container, whatever the container held. *)
Theorem fill_and_clear (N : Z) (x : bytes) (v : Z) :
  0 < N -> valid N x -> is_byte v ->
  fill N x v = replicate (Z.to_nat N) v /\ valid N (fill N x v) /\
  clear N x = zero N.
Proof.
  intros HN [Hlen Hb] Hv.
  rewrite fill_replicate by assumption.
  split; [reflexivity|]. split.
  - split; [apply length_replicate|apply Forall_replicate, Hv].
  - unfold clear. apply fill_replicate; assumption.
Qed.

Lemma fill_and_clear_witness :
  fill 3 [1; 2; 3] 0xAB = [0xAB; 0xAB; 0xAB] /\ clear 3 [1; 2; 3] = [0; 0; 0].
Proof.
  pose proof (fill_and_clear 3 [1; 2; 3] 0xAB ltac:(lia) ltac:(valid_tac)
                ltac:(unfold is_byte; lia)) as H.
  split; apply H.
Defined.

(** [reverse ()] puts byte [N - 1 - t] at index [t]: it is the reversal of
    the sequence of bytes, and applied twice it gives the container
    back. *)
Theorem reverse_involution (N : Z) (x : bytes) (t : Z) :
  0 < N -> N < 2 ^ SIZE_BITS -> valid N x -> 0 <= t < N ->
  valid N (reverse N x) /\
  rd (reverse N x) t = rd x (N - 1 - t) /\
  reverse N x = rev x /\
  reverse N (reverse N x) = x.
Proof.
  intros HN Hfit Hv Ht.
  split; [apply valid_reverse; assumption|].
  split; [apply reverse_bytes; assumption|].
  split; [apply reverse_is_rev|apply reverse_reverse]; assumption.
Qed.

Lemma reverse_involution_witness :
  reverse 3 [1; 2; 3] = [3; 2; 1] /\ reverse 3 (reverse 3 [1; 2; 3]) = [1; 2; 3].
Proof.
  pose proof (reverse_involution 3 [1; 2; 3] 0 ltac:(lia) ltac:(reflexivity)
                ltac:(valid_tac) ltac:(lia)) as H.
  split; apply H.
Defined.

(** ** First and last byte *)

(** [front ()] is byte 0 and [back ()] is byte [N - 1]; the clamping
    [operator[]] returns [back ()] for every index from [N - 1] on, and
    agrees with [at] for the indices inside of the array; [reverse ()]
    exchanges [front ()] and [back ()]. *)
Theorem front_and_back (N : Z) (x : bytes) (i : Z) :
  0 < N -> N < 2 ^ SIZE_BITS -> valid N x ->
  front x = Some (rd x 0) /\ back N x = Some (rd x (N - 1)) /\
  (N - 1 <= i -> subscript N x i = back N x) /\
  (0 <= i < N -> subscript N x i = at_ x i) /\
  front (reverse N x) = back N x /\ back N (reverse N x) = front x.
Proof.
  intros HN Hfit Hv. pose proof (valid_reverse N x Hv) as Hv'.
  destruct Hv as [Hlen Hb]. destruct Hv' as [Hlen' _].
  assert (E : to_size (N - 1) = N - 1)
    by (apply to_size_small; unfold is_size; lia).
  assert (Hf : forall y : bytes, length y = Z.to_nat N -> front y = Some (rd y 0))
    by (intros y Hy; unfold front; apply rd_lookup; lia).
  assert (Hk : forall y : bytes, length y = Z.to_nat N ->
                                 back N y = Some (rd y (N - 1)))
    by (intros y Hy; unfold back; rewrite E; apply rd_lookup; lia).
  split; [apply Hf, Hlen|]. split; [apply Hk, Hlen|].
  split; [|split; [|split]].
  - intros Hi. unfold subscript, subscript_index, back.
    rewrite Z.min_r by lia. reflexivity.
  - intros Hi. unfold subscript, subscript_index, at_.
    rewrite Z.min_l by lia. reflexivity.
  - rewrite Hf, Hk by assumption.
    rewrite reverse_bytes by lia. do 2 f_equal. lia.
  - rewrite Hf, Hk by assumption.
    rewrite reverse_bytes by lia. do 2 f_equal. lia.
Qed.

Lemma front_and_back_witness :
  front [4; 3; 2; 1] = Some 4 /\ back 4 [4; 3; 2; 1] = Some 1 /\
  subscript 4 [4; 3; 2; 1] 9 = back 4 [4; 3; 2; 1].
Proof.
  pose proof (front_and_back 4 [4; 3; 2; 1] 9 ltac:(lia) ltac:(reflexivity)
                ltac:(valid_tac)) as (H1 & H2 & H3 & _).
  split; [exact H1|]. split; [exact H2|]. apply H3. lia.
Defined.

(** ** Equality and ordering *)

Lemma for_up_shift {S : Type} (f : Z -> S -> S) (n : nat) :
  forall a s, for_up (a + 1) n f s = for_up a n (fun i => f (i + 1)) s.
Proof.
  induction n as [|n IH]; intros a s; cbn [for_up]; [reflexivity|]. apply IH.
Qed.

Lemma spaceship_found (x y : bytes) (n : nat) :
  forall a c,
    c <> Eq ->
    for_up a n (fun i c => match c with Eq => rd x i ?= rd y i | _ => c end) c
    = c.
Proof.
  induction n as [|n IH]; intros a c Hc; cbn [for_up]; [reflexivity|].
  destruct c; [congruence| |]; apply IH; discriminate.
Qed.

Lemma spaceship_lex (x : bytes) :
  forall y : bytes,
    length x = length y ->
    for_up 0 (length x)
      (fun i c => match c with Eq => rd x i ?= rd y i | _ => c end) Eq
    = lex_compare x y.
Proof.
  induction x as [|a x IH]; intros [|b y] Hlen; try discriminate;
    [reflexivity|].
  cbn [length for_up lex_compare].
  change (rd (a :: x) 0) with a. change (rd (b :: y) 0) with b.
  rewrite for_up_shift.
  rewrite (for_up_ext _
    (fun i c => match c with Eq => rd x i ?= rd y i | _ => c end))
    by (intros i c Hi; rewrite !rd_cons_succ by lia;
        replace (i + 1 - 1) with i by lia; reflexivity).
  destruct (a ?= b) eqn:E.
  - apply IH. simpl in Hlen. lia.
  - apply spaceship_found. discriminate.
  - apply spaceship_found. discriminate.
Qed.

Lemma lex_compare_eq (x : bytes) :
  forall y : bytes, length x = length y -> (lex_compare x y = Eq <-> x = y).
Proof.
  induction x as [|a x IH]; intros [|b y] Hlen; try discriminate;
    [tauto|].
  cbn [lex_compare]. destruct (Z.compare_spec a b) as [->|Hlt|Hgt].
  - rewrite IH by (simpl in Hlen; lia). split; congruence.
  - split; [discriminate|]. intros E. inversion E. lia.
  - split; [discriminate|]. intros E. inversion E. lia.
Qed.

Lemma lex_compare_antisym (x : bytes) :
  forall y : bytes, lex_compare y x = CompOpp (lex_compare x y).
Proof.
  induction x as [|a x IH]; intros [|b y]; try reflexivity.
  cbn [lex_compare]. rewrite (Z.compare_antisym a b).
  destruct (a ?= b); simpl; [apply IH|reflexivity|reflexivity].
Qed.

Lemma lex_compare_trans (x : bytes) :
  forall y z : bytes,
    lex_compare x y = Lt -> lex_compare y z = Lt -> lex_compare x z = Lt.
Proof.
  induction x as [|a x IH]; intros [|b y] [|c z]; try discriminate.
  cbn [lex_compare].
  destruct (Z.compare_spec a b) as [->|Hab|Hab]; try discriminate;
    destruct (Z.compare_spec b c) as [->|Hbc|Hbc]; try discriminate.
  - apply IH.
  - reflexivity.
  - intros _ _. rewrite (proj2 (Z.compare_lt_iff a c)) by lia. reflexivity.
  - intros _ _. rewrite (proj2 (Z.compare_lt_iff a c)) by lia. reflexivity.
Qed.

Lemma le_value_app (a b : bytes) :
  le_value (a ++ b) = le_value a + 256 ^ Z.of_nat (length a) * le_value b.
Proof.
  induction a as [|c a IH]; [simpl; lia|].
  cbn [app le_value length]. rewrite IH, Nat2Z.inj_succ, Z.pow_succ_r by lia.
  lia.
Qed.

Lemma lex_compare_numeric (x : bytes) :
  forall y : bytes,
    length x = length y -> Forall is_byte x -> Forall is_byte y ->
    lex_compare x y = (le_value (rev x) ?= le_value (rev y)).
Proof.
  induction x as [|a x IH]; intros [|b y] Hlen Hx Hy; try discriminate;
    [reflexivity|].
  apply Forall_cons in Hx. destruct Hx as [Ha Hx].
  apply Forall_cons in Hy. destruct Hy as [Hb Hy].
  simpl in Hlen. cbn [lex_compare rev].
  rewrite !le_value_app, !length_rev. cbn [le_value].
  pose proof (le_value_bound (rev x) ltac:(apply Forall_rev, Hx)) as Bx.
  pose proof (le_value_bound (rev y) ltac:(apply Forall_rev, Hy)) as By.
  rewrite length_rev in Bx, By.
  assert (Hl : length y = length x) by lia. rewrite Hl in By. rewrite Hl.
  set (K := 256 ^ Z.of_nat (length x)) in *.
  set (vx := le_value (rev x)) in *. set (vy := le_value (rev y)) in *.
  rewrite (IH y) by (auto; lia). fold vx vy.
  unfold is_byte in Ha, Hb.
  destruct (Z.compare_spec a b) as [->|Hab|Hab].
  - destruct (Z.compare_spec vx vy) as [->|H|H]; symmetry.
    + apply Z.compare_refl.
    + apply Z.compare_lt_iff. lia.
    + apply Z.compare_gt_iff. lia.
  - symmetry. apply Z.compare_lt_iff. nia.
  - symmetry. apply Z.compare_gt_iff. nia.
Qed.

(** The defaulted comparisons form a total order on the containers of [N]
    bytes: [<=>] answers "equal" exactly for equal containers, as [==]
    does; exchanging the operands reverses the answer; and "less" is
    transitive. *)
Theorem ordering_is_total (N : Z) (x y z : bytes) :
  0 < N -> valid N x -> valid N y -> valid N z ->
  (spaceship N x y = Eq <-> x = y) /\
  (equal N x y = true <-> x = y) /\
  spaceship N y x = CompOpp (spaceship N x y) /\
  (spaceship N x y = Lt -> spaceship N y z = Lt -> spaceship N x z = Lt).
Proof.
  intros HN Hx Hy Hz.
  assert (L : forall a b : bytes, valid N a -> valid N b ->
                                  spaceship N a b = lex_compare a b).
  { intros a b [Ha _] [Hb _]. unfold spaceship. rewrite <- Ha.
    apply spaceship_lex. congruence. }
  rewrite !L by assumption.
  split; [apply lex_compare_eq; destruct Hx, Hy; congruence|].
  split; [apply equal_iff; assumption|].
  split; [apply lex_compare_antisym|apply lex_compare_trans].
Qed.

Lemma ordering_is_total_witness : spaceship 2 [1; 5] [2; 0] = Lt.
Proof.
  pose proof (ordering_is_total 2 [1; 5] [1; 7] [2; 0] ltac:(lia)
                ltac:(valid_tac) ltac:(valid_tac) ltac:(valid_tac))
    as (_ & _ & _ & H).
  apply H; reflexivity.
Defined.

(** The order of [<=>] is the numeric order of the containers read with
    their bytes reversed, that is with byte 0 as the most significant
    byte. *)
Theorem ordering_is_numeric_on_reverse (N : Z) (I : int_type) (x y : bytes) :
  0 < N -> N * 8 < 2 ^ SIZE_BITS -> valid N x -> valid N y ->
  int_size I = N -> int_signed I = false ->
  spaceship N x y = (to_int N I (reverse N x) ?= to_int N I (reverse N y)).
Proof.
  intros HN Hfit Hx Hy HI Hu.
  assert (Hs : N < 2 ^ SIZE_BITS) by lia.
  rewrite !(to_int_unsigned N I) by (auto using valid_reverse).
  rewrite !reverse_is_rev by assumption.
  destruct Hx as [Hlx Hbx], Hy as [Hly Hby].
  unfold spaceship. rewrite <- Hlx.
  rewrite spaceship_lex by congruence.
  apply lex_compare_numeric; [congruence|assumption|assumption].
Qed.

Lemma ordering_is_numeric_on_reverse_witness :
  spaceship 2 [0; 1] [1; 0] =
  (to_int 2 uint16_t (reverse 2 [0; 1]) ?= to_int 2 uint16_t (reverse 2 [1; 0])).
Proof.
  apply (ordering_is_numeric_on_reverse 2 uint16_t [0; 1] [1; 0]);
    [lia | reflexivity | valid_tac | valid_tac | reflexivity | reflexivity].
Defined.

(** * Properties of the type list *)

Lemma max2_spec (a b : Z) : (max2 a b = a \/ max2 a b = b) /\ a <= max2 a b /\ b <= max2 a b.
Proof. unfold max2. destruct (Z.ltb_spec b a); lia. Qed.

Lemma max_pack_spec (o : list Z) :
  forall a b,
    (max_pack a b o = a \/ max_pack a b o = b \/ In (max_pack a b o) o) /\
    a <= max_pack a b o /\ b <= max_pack a b o /\
    Forall (fun c => c <= max_pack a b o) o.
Proof.
  induction o as [|c o IH]; intros a b; cbn [max_pack].
  - pose proof (max2_spec a b). intuition auto.
  - destruct (IH (max2 a b) c) as (Hin & H1 & H2 & H3).
    pose proof (max2_spec a b) as (Hm & Ha & Hb).
    split; [|split; [lia|split; [lia|]]].
    + destruct Hin as [E|[E|E]].
      * rewrite E. destruct Hm as [->| ->]; auto.
      * right. right. left. symmetry. exact E.
      * right. right. right. exact E.
    + constructor; assumption.
Qed.

Section TypeListProperties.

Context {ty : Type} `{EqDecision ty}.

Lemma contains_In (t : ty) (Ts : list ty) : contains t Ts = true <-> In t Ts.
Proof.
  induction Ts as [|u Us IH]; simpl; [split; [discriminate|tauto]|].
  rewrite Bool.orb_true_iff, IH, bool_decide_eq_true. split.
  - intros [->|H']; auto.
  - intros [->|H']; auto.
Qed.

Lemma type_at_lookup (Ts : list ty) :
  forall n, is_size n -> type_at n Ts = Ts !! Z.to_nat n.
Proof.
  induction Ts as [|t Ts IH]; intros n Hn; cbn [type_at]; [reflexivity|].
  unfold is_size in Hn. destruct (Z.eqb_spec n 0) as [->|Hne]; [reflexivity|].
  rewrite to_size_small by (unfold is_size; lia).
  rewrite IH by (unfold is_size; lia).
  replace (Z.to_nat n) with (S (Z.to_nat (n - 1))) by lia. reflexivity.
Qed.

Lemma index_of_missing (t : ty) (Ts : list ty) :
  ~ In t Ts -> index_of t Ts = to_size (count Ts + NOT_0U).
Proof.
  induction Ts as [|u Us IH]; intros Hnot.
  - reflexivity.
  - cbn [index_of]. destruct (decide (t = u)) as [->|Hne];
      [exfalso; apply Hnot; left; reflexivity|].
    rewrite IH by (intros Hin; apply Hnot; right; exact Hin).
    unfold count, to_size. cbn [length]. rewrite Nat2Z.inj_succ.
    rewrite Zplus_mod_idemp_r. f_equal. lia.
Qed.

Lemma index_of_found (t : ty) (Ts : list ty) :
  In t Ts -> count Ts < 2 ^ SIZE_BITS ->
  0 <= index_of t Ts < count Ts /\
  Ts !! Z.to_nat (index_of t Ts) = Some t /\
  forall n, 0 <= n < index_of t Ts -> Ts !! Z.to_nat n <> Some t.
Proof.
  unfold count. induction Ts as [|u Us IH]; intros Hin Hc; [destruct Hin|].
  cbn [index_of length] in *. rewrite Nat2Z.inj_succ in *.
  destruct (decide (t = u)) as [->|Hne].
  - split; [lia|]. split; [reflexivity|]. intros n Hn. lia.
  - destruct Hin as [E|Hin]; [congruence|].
    destruct (IH Hin ltac:(lia)) as (Hr & Hat & Hfirst).
    rewrite to_size_small by (unfold is_size; lia).
    split; [lia|]. split.
    + replace (Z.to_nat (1 + index_of t Us))
        with (S (Z.to_nat (index_of t Us))) by lia.
      exact Hat.
    + intros n Hn. destruct (Z.eq_dec n 0) as [->|Hn0].
      * simpl. congruence.
      * replace (Z.to_nat n) with (S (Z.to_nat (n - 1))) by lia.
        apply Hfirst. lia.
Qed.

Lemma max_size_spec (f : ty -> Z) (t : ty) (Ts : list ty) :
  let m := match Ts with
           | [] => f t
           | u :: o => max_pack (f t) (f u) (map f o)
           end in
  (exists u, In u (t :: Ts) /\ m = f u) /\
  forall u, In u (t :: Ts) -> f u <= m.
Proof.
  destruct Ts as [|u o]; cbv zeta.
  - split; [exists t; simpl; auto|]. intros u [->|[]]. lia.
  - destruct (max_pack_spec (map f o) (f t) (f u)) as (Hin & Ha & Hb & Hall).
    split.
    + destruct Hin as [E|[E|E]].
      * exists t. simpl. auto.
      * exists u. simpl. auto.
      * apply in_map_iff in E. destruct E as (w & Ew & Hw).
        exists w. simpl. auto.
    + intros w [->|[->|Hw]]; [lia|lia|].
      rewrite Forall_forall in Hall. apply Hall.
      apply list_elem_of_In, in_map, Hw.
Qed.

End TypeListProperties.

(** [contains], [index_of] and the indexed access agree on a type of the
    list: [contains] is true, [index_of] is the index of the first
    occurrence of the type, below [count], and the type at that index is
    the type looked up. *)
Theorem index_of_present {ty : Type} `{EqDecision ty} (t : ty) (Ts : list ty) :
  In t Ts -> count Ts < 2 ^ SIZE_BITS ->
  contains t Ts = true /\
  0 <= index_of t Ts < count Ts /\
  type_at (index_of t Ts) Ts = Some t /\
  forall n, 0 <= n < index_of t Ts -> type_at n Ts <> Some t.
Proof.
  intros Hin Hc. destruct (index_of_found t Ts Hin Hc) as (Hr & Hat & Hfirst).
  split; [apply contains_In, Hin|]. split; [exact Hr|].
  split.
  - rewrite type_at_lookup by (unfold is_size; lia). exact Hat.
  - intros n Hn. rewrite type_at_lookup by (unfold is_size; lia).
    apply Hfirst, Hn.
Qed.

Lemma index_of_present_witness :
  contains 7%nat [3; 7; 5; 7]%nat = true /\
  0 <= index_of 7%nat [3; 7; 5; 7]%nat < count [3; 7; 5; 7]%nat /\
  type_at (index_of 7%nat [3; 7; 5; 7]%nat) [3; 7; 5; 7]%nat = Some 7%nat.
Proof.
  pose proof (index_of_present 7%nat [3; 7; 5; 7]%nat
                ltac:(simpl; tauto) ltac:(reflexivity)) as (H1 & H2 & H3 & _).
  split; [exact H1|]. split; [exact H2|exact H3].
Defined.

(** For a type that is not in the list, [contains] is false and [index_of]
    is [count + 0xFFFFFFFF] in [size_t]: the value depends on the length of
    the list, it is [0xFFFFFFFF] for the empty list only, and, unless the
    sum wraps, it is an index past the end, at which there is no type. *)
Theorem index_of_absent {ty : Type} `{EqDecision ty} (t : ty) (Ts : list ty) :
  ~ In t Ts ->
  contains t Ts = false /\
  index_of t Ts = to_size (count Ts + (2 ^ 32 - 1)) /\
  (count Ts + (2 ^ 32 - 1) < 2 ^ SIZE_BITS ->
   index_of t Ts = count Ts + 4294967295 /\
   count Ts <= index_of t Ts /\
   type_at (index_of t Ts) Ts = None).
Proof.
  intros Hnot. split.
  - destruct (contains t Ts) eqn:E; [|reflexivity].
    exfalso. apply Hnot, contains_In, E.
  - pose proof (index_of_missing t Ts Hnot) as E. unfold NOT_0U in E.
    split; [exact E|]. intros Hfit.
    assert (Hc : 0 <= count Ts) by (unfold count; lia).
    rewrite to_size_small in E by (unfold is_size; lia).
    split; [rewrite E; lia|]. split; [lia|].
    rewrite type_at_lookup by (unfold is_size; lia).
    apply lookup_ge_None. unfold count in *. lia.
Qed.

Lemma index_of_absent_witness :
  index_of 4%nat [3; 7; 5]%nat = 4294967298 /\
  type_at (index_of 4%nat [3; 7; 5]%nat) [3; 7; 5]%nat = None.
Proof.
  pose proof (index_of_absent 4%nat [3; 7; 5]%nat
                ltac:(simpl; lia))
    as (_ & _ & H).
  specialize (H ltac:(reflexivity)). split; apply H.
Defined.

(** [max_size] and [max_align] of a list that is not empty are the size
    and the alignment of one of its types, and no type of the list has a
    greater one; for the empty list they are 0 and 1. *)
Theorem max_size_is_maximum {ty : Type} (sizeof alignof : ty -> Z)
    (t : ty) (Ts : list ty) :
  ((exists u, In u (t :: Ts) /\ max_size sizeof (t :: Ts) = sizeof u) /\
   forall u, In u (t :: Ts) -> sizeof u <= max_size sizeof (t :: Ts)) /\
  ((exists u, In u (t :: Ts) /\ max_align alignof (t :: Ts) = alignof u) /\
   forall u, In u (t :: Ts) -> alignof u <= max_align alignof (t :: Ts)) /\
  max_size sizeof [] = 0 /\ max_align alignof [] = 1.
Proof.
  split; [apply (max_size_spec sizeof t Ts)|].
  split; [apply (max_size_spec alignof t Ts)|].
  split; reflexivity.
Qed.

Lemma max_size_is_maximum_witness :
  Z.of_nat 8 <= max_size Z.of_nat [4; 1; 8]%nat.
Proof.
  pose proof (max_size_is_maximum Z.of_nat Z.of_nat 4%nat [1; 8]%nat)
    as [[_ H] _].
  apply H. simpl. tauto.
Defined.

(** * Properties of the composer *)

Section ComposerProperties.

Variable T : int_type.
Hypothesis T_pos : 0 < int_size T.

Lemma rd_composer_default (t : Z) : rd (composer_default T) t = 0.
Proof.
  unfold composer_default, object_repr.
  destruct (Z.lt_ge_cases t 0) as [Hneg|Hpos].
  - unfold rd. replace (Z.to_nat t) with 0%nat by lia.
    destruct (Z.to_nat (int_size T)) eqn:E; [lia|]. reflexivity.
  - rewrite rd_le_bytes by lia.
    rewrite Z.div_0_l by (apply Z.pow_nonzero; lia).
    destruct (t <? _); reflexivity.
Qed.

Lemma valid_composer_default : valid (int_size T) (composer_default T).
Proof.
  unfold composer_default, object_repr. split.
  - apply length_le_bytes.
  - apply le_bytes_is_byte.
Qed.

Lemma valid_composer_of_raw (data : bytes) (len : Z) :
  Forall is_byte data -> valid (int_size T) (composer_of_raw T data len).
Proof.
  intros Hd. unfold composer_of_raw.
  apply (valid_for_up_store (int_size T) (fun i => rd data i));
    [|apply valid_composer_default].
  intros i. apply rd_is_byte, Hd.
Qed.

Lemma composer_of_raw_bytes (data : bytes) (len t : Z) :
  0 <= len -> 0 <= t ->
  rd (composer_of_raw T data len) t =
  if t <? Z.min len (int_size T) then rd data t else 0.
Proof.
  intros Hlen Ht. unfold composer_of_raw, byte_size. cbv zeta.
  pose proof valid_composer_default as [Hl _].
  rewrite (for_up_store (fun i => rd data i))
    by (destruct (len <? int_size T) eqn:E; zcases).
  rewrite rd_composer_default.
  destruct (Z.ltb_spec len (int_size T)); zcases.
Qed.

End ComposerProperties.

(** [byte_at] refers to the byte of index [min (i, sizeof (T) - 1)] for
    every index [i]: an index past the end reads the last byte. *)
Theorem composer_byte_at_clamps (T : int_type) (raw_ : bytes) (i : Z) :
  0 < int_size T -> int_size T < 2 ^ SIZE_BITS ->
  length raw_ = Z.to_nat (int_size T) -> 0 <= i ->
  0 <= byte_at_index T i < int_size T /\
  byte_at_index T i = Z.min i (int_size T - 1) /\
  byte_at T raw_ i = Some (rd raw_ (Z.min i (int_size T - 1))).
Proof.
  intros HT Hfit Hlen Hi.
  assert (E : byte_at_index T i = Z.min i (int_size T - 1)).
  { unfold byte_at_index, byte_size.
    rewrite to_size_small by (unfold is_size; lia).
    destruct (Z.ltb_spec i (int_size T)); lia. }
  split; [lia|]. split; [exact E|].
  unfold byte_at. rewrite E. apply rd_lookup. lia.
Qed.

Lemma composer_byte_at_clamps_witness :
  byte_at uint32_t [4; 3; 2; 1] 1 = Some 3 /\
  byte_at uint32_t [4; 3; 2; 1] 4 = Some 1 /\
  byte_at uint32_t [4; 3; 2; 1] 99 = Some 1.
Proof.
  split; [|split].
  - apply (composer_byte_at_clamps uint32_t [4; 3; 2; 1] 1);
      [reflexivity | reflexivity | reflexivity | lia].
  - apply (composer_byte_at_clamps uint32_t [4; 3; 2; 1] 4);
      [reflexivity | reflexivity | reflexivity | lia].
  - apply (composer_byte_at_clamps uint32_t [4; 3; 2; 1] 99);
      [reflexivity | reflexivity | reflexivity | lia].
Defined.

(** The composer made from raw bytes holds the first
    [min (len, sizeof (T))] bytes of the input and zeros after them; for an
    unsigned [T] and an input of at least [sizeof (T)] bytes its value is
    the little-endian value of the first [sizeof (T)] bytes. *)
Theorem composer_from_raw (T : int_type) (data : bytes) (len t : Z) :
  0 < int_size T -> Forall is_byte data ->
  0 <= len <= Z.of_nat (length data) -> 0 <= t < int_size T ->
  valid (int_size T) (composer_of_raw T data len) /\
  rd (composer_of_raw T data len) t =
    (if t <? Z.min len (int_size T) then rd data t else 0) /\
  (int_size T <= len -> int_signed T = false ->
   composer_value T (composer_of_raw T data len) =
   le_value (take (Z.to_nat (int_size T)) data)).
Proof.
  intros HT Hd Hlen Ht.
  pose proof (valid_composer_of_raw T data len Hd) as Hv.
  split; [exact Hv|].
  split; [apply composer_of_raw_bytes; lia|].
  intros Hfull Hu. unfold composer_value, object_value. rewrite Hu. simpl.
  f_equal. apply rd_ext.
  - rewrite length_take. destruct Hv as [Hl _]. lia.
  - intros i Hi. destruct Hv as [Hl _]. rewrite Hl in Hi.
    rewrite composer_of_raw_bytes by lia.
    replace (i <? Z.min len (int_size T)) with true
      by (symmetry; apply Z.ltb_lt; lia).
    unfold rd. rewrite lookup_take_lt by lia. reflexivity.
Qed.

Lemma composer_from_raw_witness :
  rd (composer_of_raw uint32_t [7; 8] 2) 1 = 8 /\
  rd (composer_of_raw uint32_t [7; 8] 2) 2 = 0.
Proof.
  split.
  - exact (proj1 (proj2 (composer_from_raw uint32_t [7; 8] 2 1
             ltac:(reflexivity) ltac:(repeat constructor; unfold is_byte; lia)
             ltac:(simpl; lia) ltac:(simpl; lia)))).
  - exact (proj1 (proj2 (composer_from_raw uint32_t [7; 8] 2 2
             ltac:(reflexivity) ltac:(repeat constructor; unfold is_byte; lia)
             ltac:(simpl; lia) ltac:(simpl; lia)))).
Defined.

(** A composer made from a value gives the value back, its bytes make the
    same composer again, and these bytes are the bytes of the container of
    [sizeof (T)] bytes made from the same value. *)
Theorem composer_round_trip (T : int_type) (v : Z) :
  0 < int_size T -> representable T v ->
  composer_value T (composer_of_value T v) = v /\
  composer_of_raw T (composer_of_value T v) (byte_size T) =
    composer_of_value T v /\
  from_ptr (byte_size T) (composer_of_value T v) (byte_size T) =
    from_int (byte_size T) T v.
Proof.
  intros HT Hv. unfold byte_size.
  assert (Hl : length (composer_of_value T v) = Z.to_nat (int_size T))
    by apply length_le_bytes.
  assert (Hb : Forall is_byte (composer_of_value T v))
    by apply le_bytes_is_byte.
  split; [apply object_value_repr; assumption|]. split.
  - apply rd_ext.
    + rewrite Hl. apply (valid_composer_of_raw T _ _ Hb).
    + intros i Hi.
      pose proof (valid_composer_of_raw T (composer_of_value T v)
                    (int_size T) Hb) as [Hl' _].
      rewrite composer_of_raw_bytes by lia.
      replace (i <? Z.min (int_size T) (int_size T)) with true
        by (symmetry; apply Z.ltb_lt; lia).
      reflexivity.
  - rewrite from_ptr_take by lia. rewrite take_ge by lia.
    unfold from_int. rewrite Z.min_id.
    rewrite memcpy_all; [reflexivity|exact Hl|apply length_zero].
Qed.

Lemma composer_round_trip_witness :
  composer_value int16_t (composer_of_value int16_t (-2)) = -2 /\
  composer_of_raw int16_t (composer_of_value int16_t (-2)) (byte_size int16_t) =
    composer_of_value int16_t (-2) /\
  from_ptr (byte_size int16_t) (composer_of_value int16_t (-2))
    (byte_size int16_t) = from_int (byte_size int16_t) int16_t (-2).
Proof.
  apply (composer_round_trip int16_t (-2));
    [reflexivity | cbv; split; [discriminate | reflexivity]].
Defined.

(** * Rotations keep the population count *)

Lemma sum_loop_acc (g : Z -> Z) (n : nat) :
  forall a c,
    for_up a n (fun i c => c + g i) c = c + for_up a n (fun i c => c + g i) 0.
Proof.
  induction n as [|n IH]; intros a c; cbn [for_up]; [lia|].
  rewrite IH, (IH (a + 1) (0 + g a)). lia.
Qed.

Lemma sum_loop_shift (g : Z -> Z) (d : Z) (n : nat) :
  forall a c,
    for_up (a + d) n (fun i c => c + g i) c =
    for_up a n (fun i c => c + g (i + d)) c.
Proof.
  induction n as [|n IH]; intros a c; cbn [for_up]; [reflexivity|].
  replace (a + d + 1) with (a + 1 + d) by lia. apply IH.
Qed.

Section PopcountRotate.

Variable N : Z.
Hypothesis N_pos : 0 < N.
Hypothesis N_fits : N * 8 < 2 ^ SIZE_BITS.

Lemma popcount_bits (x : bytes) :
  popcount N x =
  for_up 0 (Z.to_nat (N * 8)) (fun j c => c + Z.b2z (bit x j)) 0.
Proof.
  rewrite popcount_counts by assumption.
  apply for_up_ext. intros j c Hj. rewrite test_bit_bit by (auto; lia).
  reflexivity.
Qed.

Lemma popcount_rotate_left_small (x : bytes) (r : Z) :
  valid N x -> 0 <= r < N * 8 ->
  popcount N (rotate_left N x r) = popcount N x.
Proof.
  intros Hv Hr. rewrite !popcount_bits.
  set (g := fun i => Z.b2z (bit x i)).
  replace (Z.to_nat (N * 8)) with (Z.to_nat r + Z.to_nat (N * 8 - r))%nat
    at 1 by lia.
  replace (Z.to_nat (N * 8)) with (Z.to_nat (N * 8 - r) + Z.to_nat r)%nat
    by lia.
  rewrite !for_up_add.
  rewrite (sum_loop_acc _ (Z.to_nat (N * 8 - r))).
  rewrite (sum_loop_acc _ (Z.to_nat r) (0 + Z.of_nat (Z.to_nat (N * 8 - r)))).
  assert (E1 : for_up 0 (Z.to_nat r)
                 (fun j c => c + Z.b2z (bit (rotate_left N x r) j)) 0 =
               for_up (0 + Z.of_nat (Z.to_nat (N * 8 - r))) (Z.to_nat r)
                 (fun j c => c + g j) 0).
  { rewrite sum_loop_shift. apply for_up_ext. intros j c Hj.
    rewrite rotate_left_bit by (auto; lia). unfold g. do 3 f_equal.
    symmetry. apply (Z.mod_unique _ _ (-1)); lia. }
  assert (E2 : for_up (0 + Z.of_nat (Z.to_nat r)) (Z.to_nat (N * 8 - r))
                 (fun j c => c + Z.b2z (bit (rotate_left N x r) j)) 0 =
               for_up 0 (Z.to_nat (N * 8 - r)) (fun j c => c + g j) 0).
  { rewrite (for_up_ext _ (fun j c => c + (fun i => g (i - r)) j)).
    - rewrite sum_loop_shift. apply for_up_ext. intros j c Hj.
      do 2 f_equal. lia.
    - intros j c Hj. rewrite rotate_left_bit by (auto; lia). unfold g.
      do 3 f_equal. apply Z.mod_small. lia. }
  rewrite E1, E2. unfold g. apply Z.add_comm.
Qed.

Lemma popcount_rotate_left (x : bytes) (n : Z) :
  valid N x -> popcount N (rotate_left N x n) = popcount N x.
Proof.
  intros Hv. rewrite rotate_left_mod by assumption.
  apply popcount_rotate_left_small; [exact Hv|].
  apply Z.mod_pos_bound. lia.
Qed.

End PopcountRotate.

(** A rotation, to the left or to the right and by any count, keeps the
    population count: no bit is lost and none is duplicated. *)
Theorem rotate_keeps_popcount (N : Z) (x : bytes) (n : Z) :
  0 < N -> N * 8 < 2 ^ SIZE_BITS -> valid N x ->
  popcount N (rotate_left N x n) = popcount N x /\
  popcount N (rotate_right N x n) = popcount N x.
Proof.
  intros HN Hfit Hv. split.
  - apply popcount_rotate_left; assumption.
  - rewrite rotate_right_as_left by assumption.
    apply popcount_rotate_left; assumption.
Qed.

Lemma rotate_keeps_popcount_witness :
  popcount 2 (rotate_left 2 [5; 9] 13) = popcount 2 [5; 9] /\
  popcount 2 (rotate_right 2 [5; 9] 13) = popcount 2 [5; 9].
Proof.
  apply (rotate_keeps_popcount 2 [5; 9] 13); [lia | reflexivity | valid_tac].
Defined.
